(** * make87 ROS 2 client template: endpoint-name resolution

    A shallow embedding of [src/minimal_client/main.cpp], namespace
    [make87]: the two helpers [sanitize_and_checksum] and
    [resolve_endpoint_name], followed by the properties the specification
    states about them.

    Conventions of the embedding:
    - [std::string] is [string]; a [char] is an [ascii] (one byte);
    - [uint64_t] and [size_t] values are [Z] with the wrap-around modulo
      [2^64] written out at every operation that can wrap;
    - a C++ computation is a function from the [world] (process environment
      and error stream) to an [outcome] and the new world; exceptions are
      the [Raised] outcome.  Running out of memory is not modelled. *)

From Stdlib Require Import ZArith List String Ascii Bool Lia.
Import ListNotations.

Local Open Scope string_scope.
Local Open Scope Z_scope.

(** ** std::string *)

Module StdString.

(** [s.size()], a [size_t]. *)
Definition size (s : string) : Z := Z.of_nat (String.length s).

(** [s += c]. *)
Definition push_back (s : string) (c : ascii) : string :=
  s ++ String c EmptyString.

(** The characters [substr(pos, count)] keeps when [pos <= size()]. *)
Definition substr_chars (s : string) (pos count : Z) : string :=
  substring (Z.to_nat pos) (Z.to_nat count) s.

(** Every character of [s] passes the test [p]. *)
Fixpoint all_chars (p : ascii -> bool) (s : string) : bool :=
  match s with
  | EmptyString => true
  | String c rest => p c && all_chars p rest
  end.

(** Character-wise map. *)
Fixpoint map_chars (f : ascii -> ascii) (s : string) : string :=
  match s with
  | EmptyString => EmptyString
  | String c rest => String (f c) (map_chars f rest)
  end.

End StdString.

Import StdString.

(** ** Machine integers *)

(** Width of [uint64_t], and of [size_t] on the 64-bit targets of ROS 2. *)
Definition word_modulus : Z := 2 ^ 64.

(** Unsigned wrap-around of an arithmetic result. *)
Definition wrap (z : Z) : Z := z mod word_modulus.

(** [unsigned char] value of a byte. *)
Definition uchar (c : ascii) : Z := Z.of_N (N_of_ascii c).

(** ** Outcomes and the computation monad *)

(** The exceptions the program can meet: [nlohmann::json::exception] (with
    its [what()] text) and [std::out_of_range] of [std::string::substr]. *)
Inductive exn : Type :=
| json_exception (what : string)
| out_of_range (what : string).

(** How a call ends: it returns a value, an exception leaves it, or it runs
    into a failed library assertion (behaviour undefined from there on). *)
Inductive outcome (A : Type) : Type :=
| Returned (a : A)
| Raised (e : exn)
| Aborted.

Arguments Returned {A} a.
Arguments Raised {A} e.
Arguments Aborted {A}.

(** What the helpers can observe or change outside their arguments: the
    process environment (a list of names with their values, read by
    [std::getenv]) and the pieces of text written to [std::cerr], oldest
    first. *)
Record world : Type := mkWorld {
  env : list (string * string);
  cerr : list string
}.

(** The value of the first entry of the environment with the given name. *)
Fixpoint lookup_env (name : string) (entries : list (string * string))
  : option string :=
  match entries with
  | [] => None
  | (n, v) :: rest => if String.eqb n name then Some v else lookup_env name rest
  end.

Definition M (A : Type) : Type := world -> outcome A * world.

Definition ret {A} (a : A) : M A := fun w => (Returned a, w).

Definition bind {A B} (m : M A) (k : A -> M B) : M B :=
  fun w =>
    match m w with
    | (Returned a, w') => k a w'
    | (Raised e, w') => (Raised e, w')
    | (Aborted, w') => (Aborted, w')
    end.

Definition throw {A} (e : exn) : M A := fun w => (Raised e, w).

Definition abort {A} : M A := fun w => (Aborted, w).

Declare Scope cxx_scope.
Delimit Scope cxx_scope with cxx.
Notation "x <- m ;; k" := (bind m (fun x => k))
  (at level 61, m at next level, right associativity) : cxx_scope.
Notation "' p <- m ;; k" := (bind m (fun x => match x with p => k end))
  (at level 61, p pattern, m at next level, right associativity) : cxx_scope.
Notation "m ;; k" := (bind m (fun _ => k))
  (at level 61, right associativity) : cxx_scope.
Local Open Scope cxx_scope.

(** [try { body } catch (const nlohmann::json::exception& e) { handler }]:
    only the JSON library's exceptions are caught. *)
Definition try_catch_json {A} (body : M A) (handler : string -> M A) : M A :=
  fun w =>
    match body w with
    | (Raised (json_exception what), w') => handler what w'
    | r => r
    end.

(** [std::getenv(name)]: [None] is the null pointer. *)
Definition getenv (name : string) : M (option string) :=
  fun w => (Returned (lookup_env name (env w)), w).

(** [std::cerr << text]. *)
Definition cerr_write (text : string) : M unit :=
  fun w => (Returned tt, mkWorld (env w) (cerr w ++ [text])%list).

(** [a && b] with a second operand that is itself a computation: it runs
    only when the first holds. *)
Definition and_then (a : bool) (b : M bool) : M bool :=
  if a then b else ret false.

(** [m] returns [v] in every world and leaves the world as it found it. *)
Definition returns {A} (m : M A) (v : A) : Prop :=
  forall w, m w = (Returned v, w).

(** [s.substr(pos, count)]: throws [std::out_of_range] when [pos > size()]. *)
Definition substr (s : string) (pos count : Z) : M string :=
  if size s <? pos then throw (out_of_range "basic_string::substr")
  else ret (substr_chars s pos count).

(** ** std::to_string on unsigned 64-bit values *)

Definition digit_char (d : Z) : ascii := ascii_of_N (Z.to_N (48 + d)).

(** The digit loop: the least significant digit is produced first and put
    in front of the digits already written. *)
Fixpoint to_string_loop (fuel : nat) (value : Z) (acc : string) : string :=
  match fuel with
  | O => acc
  | S fuel' =>
      let acc' := String (digit_char (value mod 10)) acc in
      if value / 10 =? 0 then acc' else to_string_loop fuel' (value / 10) acc'
  end.

(** A [uint64_t] has at most 20 decimal digits. *)
Definition to_string (value : Z) : string := to_string_loop 20 value "".

(** Reading a digit string back: the meaning of a decimal rendering. *)
Definition digit_value (c : ascii) : Z := uchar c - 48.

Definition is_digit (c : ascii) : bool := (48 <=? uchar c) && (uchar c <=? 57).

Fixpoint decimal_value_from (acc : Z) (s : string) : Z :=
  match s with
  | EmptyString => acc
  | String c rest => decimal_value_from (acc * 10 + digit_value c) rest
  end.

Definition decimal_value (s : string) : Z := decimal_value_from 0 s.

(** ** make87::sanitize_and_checksum *)

Section Sanitizer.

(** Whether plain [char] is signed is up to the platform (it is on x86-64,
    it is not on AArch64); the embedding covers both. *)
Variable char_is_signed : bool.

(** Value of a [char] in the comparisons of the sanitizing loop. *)
Definition char_value (c : ascii) : Z :=
  if char_is_signed && (128 <=? uchar c) then uchar c - 256 else uchar c.

(** The condition of the [if] in the sanitizing loop. *)
Definition keeps (c : ascii) : bool :=
  ((char_value "a" <=? char_value c) && (char_value c <=? char_value "z"))
  || ((char_value "A" <=? char_value c) && (char_value c <=? char_value "Z"))
  || ((char_value "0" <=? char_value c) && (char_value c <=? char_value "9"))
  || (char_value c =? char_value "_").

Definition sanitize_char (c : ascii) : ascii :=
  if keeps c then c else "_"%char.

(** [for (char c : input) { ... sanitized += ... }], from the characters
    still to read and the [sanitized] built so far. *)
Fixpoint sanitize_loop (input : string) (sanitized : string) : string :=
  match input with
  | EmptyString => sanitized
  | String c rest => sanitize_loop rest (push_back sanitized (sanitize_char c))
  end.

Definition sanitize (input : string) : string := sanitize_loop input "".

Definition checksum_modulus : Z := 1000000007.

(** [for (unsigned char b : input) sum = (sum * 31 + b) % 1000000007ULL;]
    in [uint64_t] arithmetic. *)
Fixpoint checksum_loop (input : string) (sum : Z) : Z :=
  match input with
  | EmptyString => sum
  | String b rest =>
      checksum_loop rest (wrap (wrap (sum * 31) + uchar b) mod checksum_modulus)
  end.

Definition checksum_sum (input : string) : Z := checksum_loop input 0.

Definition checksum (input : string) : string := to_string (checksum_sum input).

Definition prefix : string := "ros2_".

Definition max_total_length : Z := 256.

(** [max_total_length - prefix_length - checksum_length] in [size_t]. *)
Definition max_sanitized_length (input : string) : Z :=
  wrap (wrap (max_total_length - size prefix) - size (checksum input)).

Definition sanitize_and_checksum (input : string) : M string :=
  let sanitized := sanitize input in
  let checksum := checksum input in
  let max_sanitized_length := max_sanitized_length input in
  sanitized <- (if size sanitized >? max_sanitized_length
                then substr sanitized 0 max_sanitized_length
                else ret sanitized) ;;
  ret ((prefix ++ sanitized) ++ checksum).

End Sanitizer.

(** ** nlohmann::json values *)

Module Json.

(** A JSON document as the library holds it.  The program never looks
    into a number, so a number keeps the text it was written with.  An
    object is a [std::map]: its members are kept in key order, one per
    key. *)
#[local] Unset Elimination Schemes.
Inductive json : Type :=
| null
| boolean (b : bool)
| number (literal : string)
| jstring (s : string)
| array (items : list json)
| object (members : list (string * json)).
#[local] Set Elimination Schemes.

Fixpoint find (key : string) (members : list (string * json)) : option json :=
  match members with
  | [] => None
  | (k, v) :: rest => if String.eqb k key then Some v else find key rest
  end.

(** Insertion at the key's place in the order of [std::map]; the value of
    a key already there is replaced. *)
Fixpoint insert (key : string) (v : json) (members : list (string * json))
  : list (string * json) :=
  match members with
  | [] => [(key, v)]
  | (k, v') :: rest =>
      match String.compare key k with
      | Lt => (key, v) :: members
      | Eq => (key, v) :: rest
      | Gt => (k, v') :: insert key v rest
      end
  end.

Definition type_name (j : json) : string :=
  match j with
  | null => "null"
  | boolean _ => "boolean"
  | number _ => "number"
  | jstring _ => "string"
  | array _ => "array"
  | object _ => "object"
  end.

Definition is_array (j : json) : bool :=
  match j with array _ => true | _ => false end.

Definition is_string (j : json) : bool :=
  match j with jstring _ => true | _ => false end.

(** [j.contains(key)]: false on anything that is not an object. *)
Definition contains (j : json) (key : string) : bool :=
  match j with
  | object members =>
      match find key members with Some _ => true | None => false end
  | _ => false
  end.

(** [j[key]] on a const value: a type error on anything that is not an
    object, and a failed assertion when the key is not there. *)
Definition at_const (j : json) (key : string) : M json :=
  match j with
  | object members =>
      match find key members with
      | Some v => ret v
      | None => abort
      end
  | _ => throw (json_exception
           ("[json.exception.type_error.305] cannot use operator[] with a string argument with "
            ++ type_name j))
  end.

(** [j[key]] on a non-const value: null becomes an empty object and a
    missing key is inserted with a null value.  The result is the member
    and the container as the call leaves it. *)
Definition at_mut (j : json) (key : string) : M (json * json) :=
  match j with
  | null => ret (null, object [(key, null)])
  | object members =>
      match find key members with
      | Some v => ret (v, j)
      | None => ret (null, object (insert key null members))
      end
  | _ => throw (json_exception
           ("[json.exception.type_error.305] cannot use operator[] with a string argument with "
            ++ type_name j))
  end.

(** [j == s] for a [std::string] [s]: [s] is turned into a JSON string,
    and values of different non-numeric types are never equal. *)
Definition equals_string (j : json) (s : string) : bool :=
  match j with
  | jstring t => String.eqb t s
  | _ => false
  end.

(** [j.get<std::string>()]. *)
Definition get_string (j : json) : M string :=
  match j with
  | jstring s => ret s
  | _ => throw (json_exception
           ("[json.exception.type_error.302] type must be string, but is "
            ++ type_name j))
  end.

(** What a range-based [for] over [j] visits: the items of an array, the
    values of an object, nothing for null, and a scalar itself. *)
Definition elements (j : json) : list json :=
  match j with
  | null => []
  | array items => items
  | object members => map snd members
  | _ => [j]
  end.

End Json.

Import Json.

(** ** make87::resolve_endpoint_name *)

Definition newline : string := String (ascii_of_N 10) EmptyString.

Section Resolver.

Variable char_is_signed : bool.

(** [nlohmann::json::parse] on the text of the variable: the document, or
    the [what()] of the [parse_error] it throws. *)
Variable parse : string -> string + json.

Definition json_parse (text : string) : M json :=
  match parse text with
  | inl what => throw (json_exception what)
  | inr j => ret j
  end.

(** The [for] loop over the endpoints; [Some r] is its [return r], [None]
    is the loop running to its end. *)
Fixpoint scan_endpoints (search_endpoint : string) (endpoints : list json)
  : M (option string) :=
  match endpoints with
  | [] => ret None
  | endpoint :: rest =>
      name_matches <-
        and_then (contains endpoint "endpoint_name")
          (name <- at_const endpoint "endpoint_name" ;;
           ret (equals_string name search_endpoint)) ;;
      if name_matches then
        key_is_string <-
          and_then (contains endpoint "endpoint_key")
            (key <- at_const endpoint "endpoint_key" ;;
             ret (is_string key)) ;;
        if key_is_string then
          key <- at_const endpoint "endpoint_key" ;;
          endpoint_key <- get_string key ;;
          name <- sanitize_and_checksum char_is_signed endpoint_key ;;
          ret (Some name)
        else scan_endpoints search_endpoint rest
      else scan_endpoints search_endpoint rest
  end.

(** The body of the [try] block; [Some r] is its [return r], [None] is
    control leaving the block at its end. *)
Definition resolve_try_body (env_value search_endpoint : string)
  : M (option string) :=
  json_obj <- json_parse env_value ;;
  ' (has_endpoints, json_obj) <-
    (if contains json_obj "endpoints"
     then ' (endpoints, json_obj) <- at_mut json_obj "endpoints" ;;
          ret (is_array endpoints, json_obj)
     else ret (false, json_obj)) ;;
  found <-
    (if has_endpoints
     then ' (endpoints, _) <- at_mut json_obj "endpoints" ;;
          scan_endpoints search_endpoint (elements endpoints)
     else ret None) ;;
  match found with
  | Some name => ret (Some name)
  | None =>
      cerr_write "Endpoint " ;;
      cerr_write search_endpoint ;;
      cerr_write (" not found or missing endpoint_key. Using default value."
                  ++ newline) ;;
      ret None
  end.

Definition resolve_endpoint_name (search_endpoint default_value : string)
  : M string :=
  env_value <- getenv "ENDPOINTS" ;;
  match env_value with
  | None =>
      cerr_write ("Environment variable ENDPOINTS not set. Using default value."
                  ++ newline) ;;
      ret default_value
  | Some env_value =>
      returned <-
        try_catch_json (resolve_try_body env_value search_endpoint)
          (fun what =>
             cerr_write "Error parsing ENDPOINTS: " ;;
             cerr_write what ;;
             cerr_write (". Using default value." ++ newline) ;;
             ret None) ;;
      match returned with
      | Some name => ret name
      | None => ret default_value
      end
  end.

End Resolver.

(** ** A reference reader for JSON text

    [nlohmann::json::parse] is library code.  Every result about
    [resolve_endpoint_name] below holds for whatever function stands for
    it; [JsonText.parse] is a reader of the RFC 8259 grammar to run the
    resolver on concrete values of [ENDPOINTS].  It does not reproduce the
    position and detail the library puts in [what()], and it keeps the text
    of a number without looking at its magnitude. *)

Module JsonText.

Definition byte_in (lo hi : Z) (c : ascii) : bool :=
  (lo <=? uchar c) && (uchar c <=? hi).

Definition is_ws (c : ascii) : bool :=
  (uchar c =? 32) || (uchar c =? 9) || (uchar c =? 10) || (uchar c =? 13).

Fixpoint skip_ws (s : string) : string :=
  match s with
  | String c rest => if is_ws c then skip_ws rest else s
  | EmptyString => s
  end.

(** [expect lit s]: what follows [lit] at the start of [s]. *)
Fixpoint expect (lit s : string) : option string :=
  match lit, s with
  | EmptyString, _ => Some s
  | String a lit', String b s' => if Ascii.eqb a b then expect lit' s' else None
  | String _ _, EmptyString => None
  end.

(** The longest run of decimal digits at the start of [s], and the rest. *)
Fixpoint take_digits (s : string) : string * string :=
  match s with
  | String c rest =>
      if is_digit c
      then let (ds, r) := take_digits rest in (String c ds, r)
      else (EmptyString, s)
  | EmptyString => (EmptyString, s)
  end.

Definition nonempty (s : string) : bool :=
  match s with EmptyString => false | String _ _ => true end.

(** int: [0], or a digit from 1 to 9 followed by digits. *)
Definition read_int (s : string) : option (string * string) :=
  match s with
  | String c rest =>
      if uchar c =? 48 then Some (String c EmptyString, rest)
      else if is_digit c then Some (take_digits s)
      else None
  | EmptyString => None
  end.

(** frac: a point followed by at least one digit; may be absent. *)
Definition read_frac (s : string) : option (string * string) :=
  match s with
  | String "."%char rest =>
      let (ds, r) := take_digits rest in
      if nonempty ds then Some (String "."%char ds, r) else None
  | _ => Some (EmptyString, s)
  end.

(** exp: [e] or [E], an optional sign, at least one digit; may be absent. *)
Definition read_exp (s : string) : option (string * string) :=
  match s with
  | String c rest =>
      if (uchar c =? 101) || (uchar c =? 69) then
        let (sign, rest') :=
          match rest with
          | String d r => if (uchar d =? 43) || (uchar d =? 45)
                          then (String d EmptyString, r)
                          else (EmptyString, rest)
          | EmptyString => (EmptyString, rest)
          end in
        let (ds, r) := take_digits rest' in
        if nonempty ds then Some (String c (sign ++ ds), r) else None
      else Some (EmptyString, s)
  | EmptyString => Some (EmptyString, s)
  end.

Definition read_number (s : string) : option (string * string) :=
  let (minus, s1) :=
    match s with
    | String "-"%char r => ("-", r)
    | _ => (EmptyString, s)
    end in
  match read_int s1 with
  | None => None
  | Some (i, s2) =>
      match read_frac s2 with
      | None => None
      | Some (f, s3) =>
          match read_exp s3 with
          | None => None
          | Some (e, s4) => Some (minus ++ i ++ f ++ e, s4)
          end
      end
  end.

Definition hex_value (c : ascii) : option Z :=
  if byte_in 48 57 c then Some (uchar c - 48)
  else if byte_in 65 70 c then Some (uchar c - 55)
  else if byte_in 97 102 c then Some (uchar c - 87)
  else None.

(** The code unit of the four hexadecimal digits after [\u]. *)
Definition read_hex4 (s : string) : option (Z * string) :=
  match s with
  | String a (String b (String c (String d rest))) =>
      match hex_value a, hex_value b, hex_value c, hex_value d with
      | Some x, Some y, Some z, Some t =>
          Some (((x * 16 + y) * 16 + z) * 16 + t, rest)
      | _, _, _, _ => None
      end
  | _ => None
  end.

Definition byte_of (z : Z) : ascii := ascii_of_N (Z.to_N z).

(** UTF-8 encoding of a code point. *)
Definition utf8_encode (cp : Z) : string :=
  if cp <? 128 then String (byte_of cp) EmptyString
  else if cp <? 2048 then
    String (byte_of (192 + cp / 64))
      (String (byte_of (128 + cp mod 64)) EmptyString)
  else if cp <? 65536 then
    String (byte_of (224 + cp / 4096))
      (String (byte_of (128 + (cp / 64) mod 64))
         (String (byte_of (128 + cp mod 64)) EmptyString))
  else
    String (byte_of (240 + cp / 262144))
      (String (byte_of (128 + (cp / 4096) mod 64))
         (String (byte_of (128 + (cp / 64) mod 64))
            (String (byte_of (128 + cp mod 64)) EmptyString))).

(** The code point of a [\u] escape whose [\u] has been read; a high
    surrogate must be followed by the escape of a low one. *)
Definition read_unicode_escape (s : string) : option (Z * string) :=
  match read_hex4 s with
  | None => None
  | Some (hi, rest) =>
      if (55296 <=? hi) && (hi <=? 56319) then
        match rest with
        | String "\"%char (String "u"%char rest') =>
            match read_hex4 rest' with
            | Some (lo, rest'') =>
                if (56320 <=? lo) && (lo <=? 57343)
                then Some (65536 + (hi - 55296) * 1024 + (lo - 56320), rest'')
                else None
            | None => None
            end
        | _ => None
        end
      else if (56320 <=? hi) && (hi <=? 57343) then None
      else Some (hi, rest)
  end.

(** The ranges the bytes after the lead byte [c] of a multi-byte UTF-8
    sequence must lie in; [None] when [c] cannot lead one. *)
Definition utf8_continuation (c : ascii) : option (list (Z * Z)) :=
  let b := uchar c in
  if (194 <=? b) && (b <=? 223) then Some [(128, 191)]
  else if b =? 224 then Some [(160, 191); (128, 191)]
  else if b =? 237 then Some [(128, 159); (128, 191)]
  else if (225 <=? b) && (b <=? 239) then Some [(128, 191); (128, 191)]
  else if b =? 240 then Some [(144, 191); (128, 191); (128, 191)]
  else if (241 <=? b) && (b <=? 243) then Some [(128, 191); (128, 191); (128, 191)]
  else if b =? 244 then Some [(128, 143); (128, 191); (128, 191)]
  else None.

Fixpoint take_in_ranges (ranges : list (Z * Z)) (s : string)
  : option (string * string) :=
  match ranges with
  | [] => Some (EmptyString, s)
  | (lo, hi) :: ranges' =>
      match s with
      | String c rest =>
          if byte_in lo hi c then
            match take_in_ranges ranges' rest with
            | Some (bs, r) => Some (String c bs, r)
            | None => None
            end
          else None
      | EmptyString => None
      end
  end.

(** The characters of a string up to its closing quote; the opening quote
    has been read, [acc] holds what was decoded so far. *)
Fixpoint read_string (fuel : nat) (s : string) (acc : string)
  : option (string * string) :=
  match fuel with
  | O => None
  | S fuel' =>
      match s with
      | EmptyString => None
      | String c rest =>
          if uchar c =? 34 then Some (acc, rest)
          else if uchar c =? 92 then
            match rest with
            | EmptyString => None
            | String e rest' =>
                let simple (b : Z) :=
                  read_string fuel' rest' (push_back acc (byte_of b)) in
                if uchar e =? 34 then simple 34
                else if uchar e =? 92 then simple 92
                else if uchar e =? 47 then simple 47
                else if uchar e =? 98 then simple 8
                else if uchar e =? 102 then simple 12
                else if uchar e =? 110 then simple 10
                else if uchar e =? 114 then simple 13
                else if uchar e =? 116 then simple 9
                else if uchar e =? 117 then
                  match read_unicode_escape rest' with
                  | Some (cp, rest'') =>
                      read_string fuel' rest'' (acc ++ utf8_encode cp)
                  | None => None
                  end
                else None
            end
          else if uchar c <? 32 then None
          else if uchar c <? 128 then read_string fuel' rest (push_back acc c)
          else
            match utf8_continuation c with
            | None => None
            | Some ranges =>
                match take_in_ranges ranges rest with
                | Some (bs, rest') =>
                    read_string fuel' rest' (acc ++ String c bs)
                | None => None
                end
            end
      end
  end.

(** A value, the items of an array after its bracket, and the members of
    an object after its brace, each with the text left over. *)
Fixpoint read_value (fuel : nat) (s : string) : option (json * string) :=
  match fuel with
  | O => None
  | S fuel' =>
      match skip_ws s with
      | EmptyString => None
      | String c rest =>
          if uchar c =? 123 then
            match skip_ws rest with
            | String "}"%char rest' => Some (object [], rest')
            | _ => read_members fuel' rest []
            end
          else if uchar c =? 91 then
            match skip_ws rest with
            | String "]"%char rest' => Some (array [], rest')
            | _ => read_items fuel' rest []
            end
          else if uchar c =? 34 then
            match read_string (S (String.length rest)) rest EmptyString with
            | Some (str, rest') => Some (jstring str, rest')
            | None => None
            end
          else if uchar c =? 116 then
            option_map (pair (boolean true)) (expect "rue" rest)
          else if uchar c =? 102 then
            option_map (pair (boolean false)) (expect "alse" rest)
          else if uchar c =? 110 then
            option_map (pair null) (expect "ull" rest)
          else
            match read_number (String c rest) with
            | Some (literal, rest') => Some (number literal, rest')
            | None => None
            end
      end
  end
with read_items (fuel : nat) (s : string) (acc : list json)
  : option (json * string) :=
  match fuel with
  | O => None
  | S fuel' =>
      match read_value fuel' s with
      | None => None
      | Some (v, rest) =>
          match skip_ws rest with
          | String ","%char rest' => read_items fuel' rest' (acc ++ [v])%list
          | String "]"%char rest' => Some (array (acc ++ [v])%list, rest')
          | _ => None
          end
      end
  end
with read_members (fuel : nat) (s : string) (acc : list (string * json))
  : option (json * string) :=
  match fuel with
  | O => None
  | S fuel' =>
      match skip_ws s with
      | String c rest =>
          match (if uchar c =? 34
                 then read_string (S (String.length rest)) rest EmptyString
                 else None) with
          | None => None
          | Some (key, rest1) =>
              match skip_ws rest1 with
              | String ":"%char rest2 =>
                  match read_value fuel' rest2 with
                  | None => None
                  | Some (v, rest3) =>
                      match skip_ws rest3 with
                      | String ","%char rest4 =>
                          read_members fuel' rest4 (insert key v acc)
                      | String "}"%char rest4 =>
                          Some (object (insert key v acc), rest4)
                      | _ => None
                      end
                  end
              | _ => None
              end
          end
      | EmptyString => None
      end
  end.

(** A UTF-8 byte order mark at the start of the text is skipped. *)
Definition skip_bom (s : string) : string :=
  match s with
  | String a (String b (String c rest)) =>
      if (uchar a =? 239) && (uchar b =? 187) && (uchar c =? 191)
      then rest else s
  | _ => s
  end.

(** The whole text must be one value, with white space around it at
    most. *)
Definition parse (text : string) : string + json :=
  let text := skip_bom text in
  match read_value (2 * String.length text + 2) text with
  | Some (j, rest) =>
      match skip_ws rest with
      | EmptyString => inr j
      | String _ _ => inl "[json.exception.parse_error.101] parse error"
      end
  | None => inl "[json.exception.parse_error.101] parse error"
  end.

End JsonText.


(** The text of a JSON document written with apostrophes for its double
    quotes, as one writes it in a shell. *)
Definition quoted (s : string) : string :=
  map_chars (fun c => if uchar c =? 39 then ascii_of_N 34 else c) s.

Definition example_endpoints : string :=
  quoted "{'endpoints':[{'endpoint_name':'REQUESTER_ENDPOINT','endpoint_key':'my key!'}]}".


(** ** The specification's side

    The definitions below follow the words of the specification; the
    theorems compare them with the embedding of the code. *)

(** The characters the specification lets through: [a]-[z], [A]-[Z],
    [0]-[9] and [_], told by their byte. *)
Definition is_word_char (c : ascii) : bool :=
  ((97 <=? uchar c) && (uchar c <=? 122))
  || ((65 <=? uchar c) && (uchar c <=? 90))
  || ((48 <=? uchar c) && (uchar c <=? 57))
  || (uchar c =? 95).

Definition replace_non_word (c : ascii) : ascii :=
  if is_word_char c then c else "_"%char.

(** The original, unsanitized bytes of the input. *)
Definition original_bytes (input : string) : list Z :=
  map uchar (list_ascii_of_string input).

(** [sum = (sum * 31 + byte) mod 1,000,000,007], starting from 0, over
    the mathematical integers. *)
Definition checksum_recurrence (bytes : list Z) : Z :=
  fold_left (fun sum byte => (sum * 31 + byte) mod 1000000007) bytes 0.

(** A decimal rendering with no leading zeros: digits only, at least one,
    and a first digit [0] only when it is the only one. *)
Definition canonical_decimal (s : string) : bool :=
  all_chars is_digit s &&
  match s with
  | EmptyString => false
  | String c EmptyString => true
  | String c (String _ _) => negb (uchar c =? 48)
  end.

(** The sanitized string as the truncation step leaves it. *)
Definition truncated (char_is_signed : bool) (input : string) : string :=
  let sanitized := sanitize char_is_signed input in
  if size sanitized >? max_sanitized_length input
  then substr_chars sanitized 0 (max_sanitized_length input)
  else sanitized.

(** The top-level field [endpoints] of the document when it is an array. *)
Definition endpoints_of (doc : json) : option (list json) :=
  match doc with
  | object members =>
      match find "endpoints" members with
      | Some (array items) => Some items
      | _ => None
      end
  | _ => None
  end.

(** The full condition on an element: an object with a field
    [endpoint_name] whose value is the string [search_name] and a field
    [endpoint_key] whose value is a string; the result is that string. *)
Definition qualifying_key (search_name : string) (element : json)
  : option string :=
  match element with
  | object members =>
      match find "endpoint_name" members, find "endpoint_key" members with
      | Some (jstring name), Some (jstring key) =>
          if String.eqb name search_name then Some key else None
      | _, _ => None
      end
  | _ => None
  end.

(** Why an element does not qualify: it is not an object, or a field is
    missing or has the wrong type, or the name is another one. *)
Inductive unusable (search_name : string) : json -> Prop :=
| not_an_object (element : json) :
    (forall members, element <> object members) ->
    unusable search_name element
| name_missing (members : list (string * json)) :
    find "endpoint_name" members = None ->
    unusable search_name (object members)
| name_differs (members : list (string * json)) (v : json) :
    find "endpoint_name" members = Some v ->
    v <> jstring search_name ->
    unusable search_name (object members)
| key_missing (members : list (string * json)) :
    find "endpoint_key" members = None ->
    unusable search_name (object members)
| key_mistyped (members : list (string * json)) (v : json) :
    find "endpoint_key" members = Some v ->
    is_string v = false ->
    unusable search_name (object members).

(** First match wins, in array order. *)
Fixpoint first_qualifying (search_name : string) (elements : list json)
  : option string :=
  match elements with
  | [] => None
  | element :: rest =>
      match qualifying_key search_name element with
      | Some key => Some key
      | None => first_qualifying search_name rest
      end
  end.

(** The endpoint key the configuration gives for [search_name], if any:
    the variable is set, its text parses, the document has an [endpoints]
    array, and an element of it qualifies. *)
Definition resolution (parse : string -> string + json)
  (entries : list (string * string)) (search_name : string) : option string :=
  match lookup_env "ENDPOINTS" entries with
  | None => None
  | Some text =>
      match parse text with
      | inl _ => None
      | inr doc =>
          match endpoints_of doc with
          | None => None
          | Some items => first_qualifying search_name items
          end
      end
  end.

(** An input longer than any output: 300 times the letter x. *)
Definition long_input : string :=
  string_of_list_ascii (repeat "x"%char 300).

(** Worlds and documents to run the resolver on. *)
Definition world_with_endpoints (text : string) : world :=
  mkWorld [("HOME", "/root"); ("ENDPOINTS", text)] [].

Definition world_without_endpoints : world :=
  mkWorld [("HOME", "/root")] [].

Definition shared_name_endpoints : string :=
  quoted "{'endpoints':[{'endpoint_name':'OTHER','endpoint_key':'zero'},{'endpoint_name':'A','endpoint_key':'first'},{'endpoint_name':'A','endpoint_key':'second'}]}".

Definition endpoint_entry (name key : string) : json :=
  object [("endpoint_key", jstring key); ("endpoint_name", jstring name)].

(** What the text [example_endpoints] parses to. *)
Definition example_document : json :=
  object [("endpoints", array [endpoint_entry "REQUESTER_ENDPOINT" "my key!"])].

(** What the text [shared_name_endpoints] parses to. *)
Definition shared_name_document : json :=
  object [("endpoints",
           array [endpoint_entry "OTHER" "zero"; endpoint_entry "A" "first";
                  endpoint_entry "A" "second"])].

(** The diagnostic of a resolution that finds no key, as the pieces
    written to the error stream. *)
Definition diagnostic (parse : string -> string + json)
  (entries : list (string * string)) (search_name : string) : list string :=
  match lookup_env "ENDPOINTS" entries with
  | None =>
      ["Environment variable ENDPOINTS not set. Using default value." ++ newline]
  | Some text =>
      match parse text with
      | inl what =>
          ["Error parsing ENDPOINTS: "; what; ". Using default value." ++ newline]
      | inr _ =>
          ["Endpoint "; search_name;
           " not found or missing endpoint_key. Using default value." ++ newline]
      end
  end.

(** The call returns [default_value], writes a diagnostic to the error
    stream and changes nothing else. *)
Definition falls_back (m : M string) (default_value : string) (w : world)
  : Prop :=
  exists text : list string,
    text <> [] /\ m w = (Returned default_value, mkWorld (env w) (cerr w ++ text)).

(** ** main

    The ROS 2 middleware ([rclcpp]) is outside the repository.  What it
    answers over one run is a script, and the calls [main] makes to it are
    recorded in order.  Exceptions of the middleware itself are not
    modelled. *)

Module Ros.

(** [rclcpp::FutureReturnCode]. *)
Inductive future_return_code : Type := SUCCESS | INTERRUPTED | TIMEOUT.

(** One pass of the wait loop as the middleware answers it:
    [wait_for_service] returned true, or it returned false and
    [rclcpp::ok()] then returned [still_ok]. *)
Inductive poll : Type :=
| service_ready
| service_absent (still_ok : bool).

Record middleware : Type := mkMiddleware {
  polls : list poll;
  spin_result : future_return_code;
  response_sum : Z
}.

(** The calls to the middleware that have returned, with what [main]
    passed to them. *)
Inductive call : Type :=
| init
| make_node (name : string)
| create_client (service_name : string)
| wait_for_service (seconds : Z)
| ok
| log_error (text : string)
| log_info (text : string)
| log_info_result (a b sum : Z)
| async_send_request (a b : Z)
| spin_until_future_complete
| remove_pending_request
| future_get
| shutdown.

(** How the run ends within the script: [main] returns a code, it is still
    in the wait loop when the script ends, or the resolver did not
    return. *)
Inductive ending : Type :=
| exited (code : Z)
| waiting
| crashed.

(** [while (!client->wait_for_service(1s)) { if (!rclcpp::ok()) { ...
    return 1; } ... }]: the calls made, and [Some true] when the loop is
    left, [Some false] for its [return 1], [None] when the script ends
    first. *)
Fixpoint wait_loop (script : list poll) : list call * option bool :=
  match script with
  | [] => ([], None)
  | service_ready :: _ => ([wait_for_service 1], Some true)
  | service_absent still_ok :: rest =>
      if still_ok then
        let (calls, left) := wait_loop rest in
        (wait_for_service 1 :: ok
           :: log_info "waiting for service to appear..." :: calls, left)
      else
        ([wait_for_service 1; ok;
          log_error "client interrupted while waiting for service to appear."],
         Some false)
  end.

Definition main (char_is_signed : bool) (parse : string -> string + json)
  (mw : middleware) (w : world) : ending * list call * world :=
  let start := [init; make_node "minimal_client"] in
  match resolve_endpoint_name char_is_signed parse
          "REQUESTER_ENDPOINT" "add_two_ints" w with
  | (Returned service_name, w') =>
      let start := (start ++ [create_client service_name])%list in
      match wait_loop (polls mw) with
      | (calls, None) => (waiting, (start ++ calls)%list, w')
      | (calls, Some false) => (exited 1, (start ++ calls)%list, w')
      | (calls, Some true) =>
          let sent := [async_send_request 41 1; spin_until_future_complete] in
          match spin_result mw with
          | SUCCESS =>
              (exited 0,
               (start ++ calls ++ sent
                ++ [future_get; log_info_result 41 1 (response_sum mw);
                    shutdown])%list,
               w')
          | _ =>
              (exited 1,
               (start ++ calls ++ sent
                ++ [log_error "service call failed :(";
                    remove_pending_request])%list,
               w')
          end
      end
  | (_, w') => (crashed, start, w')
  end.

(** The calls of [n] passes of the wait loop that found the service absent
    and the process still running. *)
Fixpoint waiting_calls (n : nat) : list call :=
  match n with
  | O => []
  | S n' =>
      wait_for_service 1 :: ok
        :: log_info "waiting for service to appear..." :: waiting_calls n'
  end.


(** The three shapes of a script: after some passes that find the service
    absent and the process running, the service is there, or the process
    has been interrupted, or the script ends. *)
Definition becomes_ready (script : list poll) : Prop :=
  exists n rest, script = (repeat (service_absent true) n
                           ++ service_ready :: rest)%list.

Definition interrupted (script : list poll) : Prop :=
  exists n rest, script = (repeat (service_absent true) n
                           ++ service_absent false :: rest)%list.

Definition never_decided (script : list poll) : Prop :=
  exists n, script = repeat (service_absent true) n.

(** The exit code and the calls of a run. *)
Definition ending_of (r : ending * list call * world) : ending := fst (fst r).

Definition calls_of (r : ending * list call * world) : list call := snd (fst r).

(** Two scripts to run [main] on: the service appears at the third poll
    and answers 42; the process is interrupted at the second poll. *)
Definition patient_run : middleware :=
  mkMiddleware [service_absent true; service_absent true; service_ready]
    SUCCESS 42.

Definition interrupted_run : middleware :=
  mkMiddleware [service_absent true; service_absent false; service_ready]
    SUCCESS 42.

End Ros.

(** The text of a failed resolution, by its cause. *)
Definition text_env_not_set : list string :=
  ["Environment variable ENDPOINTS not set. Using default value." ++ newline].

Definition text_parse_error (what : string) : list string :=
  ["Error parsing ENDPOINTS: "; what; ". Using default value." ++ newline].

Definition text_not_found (search_name : string) : list string :=
  ["Endpoint "; search_name;
   " not found or missing endpoint_key. Using default value." ++ newline].

(** A document whose first element has the searched name and a number for
    its key. *)
Definition mistyped_key_endpoints : string :=
  quoted "{'endpoints':[{'endpoint_name':'A','endpoint_key':7},{'endpoint_name':'A','endpoint_key':'second'}]}".

Definition mistyped_key_document : json :=
  object [("endpoints",
           array [object [("endpoint_key", number "7");
                          ("endpoint_name", jstring "A")];
                  endpoint_entry "A" "second"])].

(** A world that differs from [world_with_endpoints] in everything but the
    value of [ENDPOINTS]. *)
Definition busy_world_with_endpoints (text : string) : world :=
  mkWorld [("ENDPOINTS", text); ("PATH", "/usr/bin"); ("ENDPOINTS", "{}")]
    ["earlier output"].

(** * Properties *)

(** ** Strings *)

Module StringFacts.

Lemma length_append (a b : string) :
  String.length (a ++ b) = (String.length a + String.length b)%nat.
Proof. induction a as [|c a IH]; simpl; [reflexivity | now rewrite IH]. Qed.

Lemma append_assoc (a b c : string) : (a ++ b) ++ c = a ++ (b ++ c).
Proof. induction a as [|x a IH]; simpl; [reflexivity | now rewrite IH]. Qed.

Lemma append_empty_r (a : string) : a ++ "" = a.
Proof. induction a as [|x a IH]; simpl; [reflexivity | now rewrite IH]. Qed.

Lemma size_nonneg (s : string) : 0 <= size s.
Proof. unfold size; lia. Qed.

Lemma size_append (a b : string) : size (a ++ b) = size a + size b.
Proof. unfold size; rewrite length_append; lia. Qed.

Lemma substring_0_length (n : nat) (s : string) :
  String.length (substring 0 n s) = Nat.min n (String.length s).
Proof.
  revert s; induction n as [|n IH]; intros [|c s]; simpl; try reflexivity.
  now rewrite IH.
Qed.

Lemma substring_0_split (n : nat) (s : string) :
  exists dropped, s = substring 0 n s ++ dropped.
Proof.
  revert s; induction n as [|n IH]; intros [|c s]; simpl.
  - now exists "".
  - now exists (String c s).
  - now exists "".
  - destruct (IH s) as [d Hd]. exists d. now rewrite <- Hd.
Qed.

Lemma all_chars_append (p : ascii -> bool) (a b : string) :
  all_chars p (a ++ b) = all_chars p a && all_chars p b.
Proof.
  induction a as [|c a IH]; simpl; [reflexivity|].
  now rewrite IH, andb_assoc.
Qed.

Lemma all_chars_substring_0 (p : ascii -> bool) (n : nat) (s : string) :
  all_chars p s = true -> all_chars p (substring 0 n s) = true.
Proof.
  intros H. destruct (substring_0_split n s) as [d Hd].
  rewrite Hd, all_chars_append in H.
  now apply andb_true_iff in H.
Qed.

Lemma map_chars_length (f : ascii -> ascii) (s : string) :
  String.length (map_chars f s) = String.length s.
Proof. induction s as [|c s IH]; simpl; [reflexivity | now rewrite IH]. Qed.

Lemma all_chars_map (p : ascii -> bool) (f : ascii -> ascii) (s : string) :
  (forall c, p (f c) = true) -> all_chars p (map_chars f s) = true.
Proof.
  intros H; induction s as [|c s IH]; simpl; [reflexivity|].
  now rewrite H, IH.
Qed.

Lemma uchar_range (c : ascii) : 0 <= uchar c < 256.
Proof.
  unfold uchar. pose proof (N_ascii_bounded c) as H.
  split; [apply N2Z.is_nonneg|]. change 256 with (Z.of_N 256). lia.
Qed.

End StringFacts.

Import StringFacts.

(** ** Decimal rendering *)

Module DecimalFacts.

Lemma digit_cases (d : Z) :
  0 <= d < 10 ->
  d = 0 \/ d = 1 \/ d = 2 \/ d = 3 \/ d = 4 \/ d = 5 \/ d = 6 \/ d = 7
  \/ d = 8 \/ d = 9.
Proof. lia. Qed.

Ltac each_digit d H :=
  destruct (digit_cases d H) as
    [-> | [-> | [-> | [-> | [-> | [-> | [-> | [-> | [-> | ->]]]]]]]]].

Lemma digit_value_char (d : Z) : 0 <= d < 10 -> digit_value (digit_char d) = d.
Proof. intros H; each_digit d H; reflexivity. Qed.

Lemma is_digit_char (d : Z) : 0 <= d < 10 -> is_digit (digit_char d) = true.
Proof. intros H; each_digit d H; reflexivity. Qed.

Lemma digit_char_nonzero (d : Z) :
  0 < d < 10 -> (uchar (digit_char d) =? 48) = false.
Proof.
  intros H. assert (H' : 0 <= d < 10) by lia.
  each_digit d H'; try reflexivity; lia.
Qed.

Lemma mod10_range (v : Z) : 0 <= v mod 10 < 10.
Proof. apply Z.mod_pos_bound; lia. Qed.

Lemma loop_acc (fuel : nat) (v : Z) (acc : string) :
  to_string_loop fuel v acc = to_string_loop fuel v "" ++ acc.
Proof.
  revert v acc; induction fuel as [|fuel IH]; intros v acc; simpl.
  - reflexivity.
  - destruct (v / 10 =? 0); [reflexivity|].
    rewrite IH, (IH _ (String _ "")), append_assoc. reflexivity.
Qed.

Lemma decimal_value_from_append (a : Z) (s t : string) :
  decimal_value_from a (s ++ t) = decimal_value_from (decimal_value_from a s) t.
Proof. revert a; induction s as [|c s IH]; intros a; simpl; [reflexivity | apply IH]. Qed.

Lemma div10_upper (v : Z) (k : nat) :
  0 <= v < 10 ^ Z.of_nat (S k) -> 0 <= v / 10 < 10 ^ Z.of_nat k.
Proof.
  intros [H0 H1]. rewrite Nat2Z.inj_succ, Z.pow_succ_r in H1 by lia.
  split; [apply Z.div_pos; lia | apply Z.div_lt_upper_bound; lia].
Qed.

(** The rendering never has more digits than the magnitude asks for. *)
Lemma loop_length (fuel : nat) : forall (v : Z) (acc : string) (k : nat),
  0 <= v < 10 ^ Z.of_nat (S k) ->
  (String.length (to_string_loop fuel v acc) <= S k + String.length acc)%nat.
Proof.
  induction fuel as [|fuel IH]; intros v acc k Hv; simpl; [lia|].
  destruct (v / 10 =? 0) eqn:E; simpl; [lia|].
  apply Z.eqb_neq in E.
  destruct k as [|k].
  - change (10 ^ Z.of_nat 1) with 10 in Hv.
    exfalso; apply E; apply Z.div_small; lia.
  - specialize (IH (v / 10) (String (digit_char (v mod 10)) acc) k
                  (div10_upper _ _ Hv)).
    simpl in IH. lia.
Qed.

(** With fuel for all its digits, a value is read back from its
    rendering. *)
Lemma loop_value (fuel : nat) : forall v : Z,
  0 <= v < 10 ^ Z.of_nat fuel ->
  decimal_value (to_string_loop fuel v "") = v.
Proof.
  unfold decimal_value.
  induction fuel as [|fuel IH]; intros v Hv.
  - simpl in *. lia.
  - simpl. pose proof (mod10_range v) as Hm.
    destruct (v / 10 =? 0) eqn:E.
    + apply Z.eqb_eq in E. simpl. rewrite digit_value_char by exact Hm.
      pose proof (Z.div_mod v 10). lia.
    + rewrite loop_acc, decimal_value_from_append, IH
        by (apply div10_upper; exact Hv).
      simpl. rewrite digit_value_char by exact Hm.
      pose proof (Z.div_mod v 10). lia.
Qed.

Lemma loop_digits (fuel : nat) : forall (v : Z) (acc : string),
  all_chars is_digit acc = true ->
  all_chars is_digit (to_string_loop fuel v acc) = true.
Proof.
  induction fuel as [|fuel IH]; intros v acc Hacc; simpl; [exact Hacc|].
  assert (H : all_chars is_digit (String (digit_char (v mod 10)) acc) = true).
  { simpl. now rewrite is_digit_char, Hacc by apply mod10_range. }
  destruct (v / 10 =? 0); [exact H | apply IH, H].
Qed.

(** A positive value is rendered with a first digit other than [0]. *)
Lemma loop_first_digit (fuel : nat) : forall v : Z,
  0 < v < 10 ^ Z.of_nat fuel ->
  exists c rest, to_string_loop fuel v "" = String c rest
                 /\ (uchar c =? 48) = false.
Proof.
  induction fuel as [|fuel IH]; intros v Hv.
  - simpl in Hv. lia.
  - simpl. destruct (v / 10 =? 0) eqn:E.
    + apply Z.eqb_eq in E.
      assert (v mod 10 = v) by (pose proof (Z.div_mod v 10); lia).
      do 2 eexists; split; [reflexivity|].
      apply digit_char_nonzero. pose proof (mod10_range v). lia.
    + apply Z.eqb_neq in E.
      assert (Hd : 0 <= v / 10 < 10 ^ Z.of_nat fuel) by (apply div10_upper; lia).
      destruct (IH (v / 10)) as (c & rest & Hc & Hz); [lia|].
      rewrite loop_acc, Hc. simpl. do 2 eexists; split; [reflexivity | exact Hz].
Qed.

Lemma to_string_zero : to_string 0 = "0".
Proof. reflexivity. Qed.

Lemma to_string_value (v : Z) :
  0 <= v < word_modulus -> decimal_value (to_string v) = v.
Proof.
  intros Hv. apply loop_value.
  assert (word_modulus < 10 ^ Z.of_nat 20) by (vm_compute; reflexivity). lia.
Qed.

Lemma to_string_canonical (v : Z) :
  0 <= v < word_modulus -> canonical_decimal (to_string v) = true.
Proof.
  intros Hv. unfold canonical_decimal.
  assert (Hd : all_chars is_digit (to_string v) = true)
    by (apply loop_digits; reflexivity).
  rewrite Hd, andb_true_l.
  destruct (Z.eq_dec v 0) as [-> | Hnz]; [reflexivity|].
  destruct (loop_first_digit 20 v) as (c & rest & Heq & Hz).
  { assert (word_modulus < 10 ^ Z.of_nat 20) by (vm_compute; reflexivity). lia. }
  unfold to_string. rewrite Heq.
  destruct rest; [reflexivity | now rewrite Hz].
Qed.

Lemma to_string_length (v : Z) (k : nat) :
  0 <= v < 10 ^ Z.of_nat (S k) -> (String.length (to_string v) <= S k)%nat.
Proof.
  intros Hv. pose proof (loop_length 20 v "" k Hv) as H.
  change (String.length "") with 0%nat in H.
  unfold to_string. lia.
Qed.

Lemma loop_grows (fuel : nat) : forall (v : Z) (acc : string),
  (String.length acc <= String.length (to_string_loop fuel v acc))%nat.
Proof.
  induction fuel as [|fuel IH]; intros v acc; cbn [to_string_loop]; [lia|].
  destruct (v / 10 =? 0).
  - cbn [String.length]. lia.
  - specialize (IH (v / 10) (String (digit_char (v mod 10)) acc)).
    cbn [String.length] in IH. lia.
Qed.

Lemma loop_nonempty (fuel : nat) (v : Z) (acc : string) :
  (1 <= String.length (to_string_loop (S fuel) v acc))%nat.
Proof.
  cbn [to_string_loop]. destruct (v / 10 =? 0).
  - cbn [String.length]. lia.
  - pose proof (loop_grows fuel (v / 10) (String (digit_char (v mod 10)) acc)) as H.
    cbn [String.length] in H. lia.
Qed.

Lemma to_string_nonempty (v : Z) : (1 <= String.length (to_string v))%nat.
Proof. apply (loop_nonempty 19). Qed.

End DecimalFacts.

Import DecimalFacts.

(** ** The sanitizer and the checksum *)

Section SanitizerFacts.

Variable char_is_signed : bool.

(** The comparisons on [char] select the same bytes whether [char] is
    signed or not. *)
Lemma keeps_word_char (c : ascii) : keeps char_is_signed c = is_word_char c.
Proof.
  destruct char_is_signed;
    destruct c as [[] [] [] [] [] [] [] []]; reflexivity.
Qed.

Lemma sanitize_char_spec (c : ascii) :
  sanitize_char char_is_signed c = replace_non_word c.
Proof. unfold sanitize_char, replace_non_word. now rewrite keeps_word_char. Qed.

Lemma sanitize_loop_map (input sanitized : string) :
  sanitize_loop char_is_signed input sanitized
  = sanitized ++ map_chars replace_non_word input.
Proof.
  revert sanitized; induction input as [|c input IH]; intros sanitized; simpl.
  - now rewrite append_empty_r.
  - rewrite IH. unfold push_back. rewrite append_assoc, sanitize_char_spec.
    reflexivity.
Qed.

Lemma sanitize_map (input : string) :
  sanitize char_is_signed input = map_chars replace_non_word input.
Proof. unfold sanitize. now rewrite sanitize_loop_map. Qed.

Lemma replace_non_word_is_word (c : ascii) :
  is_word_char (replace_non_word c) = true.
Proof.
  unfold replace_non_word. destruct (is_word_char c) eqn:E; [exact E | reflexivity].
Qed.

Lemma replace_non_ascii (c : ascii) : 128 <= uchar c -> replace_non_word c = "_"%char.
Proof.
  intros H. unfold replace_non_word, is_word_char.
  repeat match goal with
         | |- context [?a <=? ?b] => destruct (Z.leb_spec a b); try lia
         | |- context [?a =? ?b] => destruct (Z.eqb_spec a b); try lia
         end; reflexivity.
Qed.

Lemma sanitize_word_chars (input : string) :
  all_chars is_word_char (sanitize char_is_signed input) = true.
Proof. rewrite sanitize_map. apply all_chars_map, replace_non_word_is_word. Qed.

Lemma sanitize_length (input : string) :
  String.length (sanitize char_is_signed input) = String.length input.
Proof. rewrite sanitize_map. apply map_chars_length. Qed.

(** One step of the checksum loop stays far below [2^64]. *)
Lemma checksum_step_no_wrap (sum : Z) (b : ascii) :
  0 <= sum < checksum_modulus ->
  wrap (wrap (sum * 31) + uchar b) = sum * 31 + uchar b.
Proof.
  intros Hs. pose proof (uchar_range b) as Hb.
  unfold wrap, word_modulus, checksum_modulus in *.
  rewrite (Z.mod_small (sum * 31)) by lia.
  apply Z.mod_small. lia.
Qed.

Lemma checksum_loop_range (input : string) : forall sum : Z,
  0 <= sum < checksum_modulus ->
  0 <= checksum_loop input sum < checksum_modulus.
Proof.
  induction input as [|b input IH]; intros sum Hs; simpl; [exact Hs|].
  apply IH, Z.mod_pos_bound. reflexivity.
Qed.

Lemma checksum_loop_recurrence (input : string) : forall sum : Z,
  0 <= sum < checksum_modulus ->
  checksum_loop input sum
  = fold_left (fun sum byte => (sum * 31 + byte) mod 1000000007)
      (original_bytes input) sum.
Proof.
  unfold original_bytes.
  induction input as [|b input IH]; intros sum Hs; simpl; [reflexivity|].
  rewrite checksum_step_no_wrap by exact Hs.
  apply IH, Z.mod_pos_bound. reflexivity.
Qed.

Lemma checksum_sum_range (input : string) :
  0 <= checksum_sum input < checksum_modulus.
Proof. apply checksum_loop_range. unfold checksum_modulus. lia. Qed.

Lemma checksum_sum_recurrence (input : string) :
  checksum_sum input = checksum_recurrence (original_bytes input).
Proof. apply checksum_loop_recurrence. unfold checksum_modulus. lia. Qed.

Lemma checksum_length (input : string) :
  (1 <= String.length (checksum input) <= 10)%nat.
Proof.
  split; [apply to_string_nonempty|].
  apply (to_string_length _ 9).
  pose proof (checksum_sum_range input) as H. unfold checksum_modulus in H.
  assert (1000000007 < 10 ^ Z.of_nat 10) by (vm_compute; reflexivity). lia.
Qed.

Lemma checksum_size (input : string) : 1 <= size (checksum input) <= 10.
Proof. pose proof (checksum_length input). unfold size. lia. Qed.

(** The length budget is the plain difference: neither subtraction
    wraps. *)
Lemma max_sanitized_length_exact (input : string) :
  max_sanitized_length input
  = max_total_length - size prefix - size (checksum input).
Proof.
  pose proof (checksum_size input) as H.
  unfold max_sanitized_length, wrap, word_modulus.
  change (max_total_length - size prefix) with 251 in *.
  rewrite (Z.mod_small 251) by lia.
  apply Z.mod_small. lia.
Qed.

Lemma substr_from_start (s : string) (count : Z) :
  returns (substr s 0 count) (substr_chars s 0 count).
Proof.
  intros w. unfold substr. pose proof (size_nonneg s).
  destruct (Z.ltb_spec (size s) 0); [lia | reflexivity].
Qed.

(** What the function returns, in every world. *)
Lemma sanitize_and_checksum_returns (input : string) :
  returns (sanitize_and_checksum char_is_signed input)
    (prefix ++ truncated char_is_signed input ++ checksum input).
Proof.
  intros w. unfold sanitize_and_checksum, truncated, bind.
  rewrite <- append_assoc.
  destruct (size (sanitize char_is_signed input) >? max_sanitized_length input).
  - rewrite substr_from_start. reflexivity.
  - reflexivity.
Qed.

Lemma truncated_split (input : string) :
  exists dropped,
    sanitize char_is_signed input = truncated char_is_signed input ++ dropped
    /\ (dropped <> "" ->
        size (truncated char_is_signed input) = max_sanitized_length input).
Proof.
  unfold truncated.
  destruct (Z.gtb_spec (size (sanitize char_is_signed input))
              (max_sanitized_length input)) as [Hgt | Hle].
  - unfold substr_chars.
    destruct (substring_0_split (Z.to_nat (max_sanitized_length input))
                (sanitize char_is_signed input)) as [d Hd].
    exists d. split; [exact Hd|]. intros _.
    unfold size in *. rewrite substring_0_length.
    rewrite max_sanitized_length_exact in *.
    pose proof (checksum_size input).
    change (max_total_length - size prefix) with 251 in *.
    unfold size in *. lia.
  - exists "". split; [now rewrite append_empty_r | congruence].
Qed.

Lemma truncated_size (input : string) :
  0 <= size (truncated char_is_signed input) <= max_sanitized_length input.
Proof.
  split; [apply size_nonneg|]. unfold truncated.
  destruct (Z.gtb_spec (size (sanitize char_is_signed input))
              (max_sanitized_length input)) as [Hgt | Hle]; [|exact Hle].
  unfold substr_chars, size. rewrite substring_0_length.
  pose proof (checksum_size input).
  rewrite max_sanitized_length_exact in *.
  change (max_total_length - size prefix) with 251 in *. lia.
Qed.

Lemma truncated_word_chars (input : string) :
  all_chars is_word_char (truncated char_is_signed input) = true.
Proof.
  unfold truncated.
  destruct (size (sanitize char_is_signed input) >? max_sanitized_length input).
  - apply all_chars_substring_0, sanitize_word_chars.
  - apply sanitize_word_chars.
Qed.

End SanitizerFacts.

(** ** Claims on [sanitize_and_checksum] *)

(** C4. For every input, the checksum that ends the output is the
    recurrence [sum = (sum * 31 + byte) mod 1,000,000,007] from 0 over the
    original bytes of the input (the 64-bit arithmetic of the code never
    wraps), rendered in decimal with no leading zeros; the value 0 is
    rendered as "0". *)
Theorem checksum_of_original_bytes (char_is_signed : bool) (input : string) :
  returns (sanitize_and_checksum char_is_signed input)
    (prefix ++ truncated char_is_signed input
     ++ to_string (checksum_recurrence (original_bytes input)))
  /\ checksum_sum input = checksum_recurrence (original_bytes input)
  /\ decimal_value (checksum input) = checksum_recurrence (original_bytes input)
  /\ canonical_decimal (checksum input) = true
  /\ to_string 0 = "0".
Proof.
  pose proof (checksum_sum_range input) as Hr.
  assert (Hw : 0 <= checksum_sum input < word_modulus).
  { unfold checksum_modulus, word_modulus in *. lia. }
  repeat split.
  - rewrite <- checksum_sum_recurrence. apply sanitize_and_checksum_returns.
  - apply checksum_sum_recurrence.
  - rewrite <- checksum_sum_recurrence. apply to_string_value, Hw.
  - apply to_string_canonical, Hw.
Qed.

(** C5. The sanitized string is the input with every character outside
    [a-z], [A-Z], [0-9] and [_] replaced by [_], character by character:
    every byte from 128 up is replaced, the length is the input's, and
    every character of the segment of the output between the prefix and
    the checksum is in [A-Za-z0-9_]. *)
Theorem sanitize_character_set (char_is_signed : bool) (input : string) :
  sanitize char_is_signed input = map_chars replace_non_word input
  /\ (forall c, 128 <= uchar c -> sanitize_char char_is_signed c = "_"%char)
  /\ String.length (sanitize char_is_signed input) = String.length input
  /\ returns (sanitize_and_checksum char_is_signed input)
       (prefix ++ truncated char_is_signed input ++ checksum input)
  /\ all_chars is_word_char (truncated char_is_signed input) = true.
Proof.
  repeat split.
  - apply sanitize_map.
  - intros c Hc. rewrite sanitize_char_spec. now apply replace_non_ascii.
  - apply sanitize_length.
  - apply sanitize_and_checksum_returns.
  - apply truncated_word_chars.
Qed.

(** C6. The output is the prefix, then the first characters of the
    sanitized string, then the checksum string; it has at most 256
    characters and at least as many as the prefix and the checksum
    together; when characters are dropped it has exactly 256. *)
Theorem output_shape_and_length (char_is_signed : bool) (input : string) :
  exists kept dropped output,
    returns (sanitize_and_checksum char_is_signed input) output
    /\ output = prefix ++ kept ++ checksum input
    /\ sanitize char_is_signed input = kept ++ dropped
    /\ size output <= 256
    /\ size prefix + size (checksum input) <= size output
    /\ (dropped <> "" -> size output = 256).
Proof.
  destruct (truncated_split char_is_signed input) as (dropped & Hsplit & Hfull).
  pose proof (truncated_size char_is_signed input) as Hsize.
  pose proof (max_sanitized_length_exact input) as Hmax.
  exists (truncated char_is_signed input), dropped,
    (prefix ++ truncated char_is_signed input ++ checksum input).
  rewrite !size_append.
  unfold max_total_length in Hmax.
  repeat split.
  - apply sanitize_and_checksum_returns.
  - exact Hsplit.
  - lia.
  - lia.
  - intros Hd. specialize (Hfull Hd). lia.
Qed.

(** C7. On the empty input the sum stays 0, it is rendered as "0", the
    sanitized segment is empty, and the function returns "ros2_0". *)
Theorem empty_input (char_is_signed : bool) :
  returns (sanitize_and_checksum char_is_signed "") "ros2_0"
  /\ checksum_sum "" = 0
  /\ checksum "" = "0"
  /\ sanitize char_is_signed "" = "".
Proof. repeat split. Qed.

(** C8. "a.b" and "a-b" have the same sanitized string and different
    bytes; their checksums differ, and so do the outputs. *)
Theorem checksum_tells_apart (char_is_signed : bool) :
  sanitize char_is_signed "a.b" = sanitize char_is_signed "a-b"
  /\ original_bytes "a.b" <> original_bytes "a-b"
  /\ checksum "a.b" = "94741"
  /\ checksum "a-b" = "94710"
  /\ returns (sanitize_and_checksum char_is_signed "a.b") "ros2_a_b94741"
  /\ returns (sanitize_and_checksum char_is_signed "a-b") "ros2_a_b94710"
  /\ forall w,
       fst (sanitize_and_checksum char_is_signed "a.b" w)
       <> fst (sanitize_and_checksum char_is_signed "a-b" w).
Proof.
  assert (H1 : returns (sanitize_and_checksum char_is_signed "a.b") "ros2_a_b94741").
  { intros w. destruct char_is_signed; reflexivity. }
  assert (H2 : returns (sanitize_and_checksum char_is_signed "a-b") "ros2_a_b94710").
  { intros w. destruct char_is_signed; reflexivity. }
  repeat split; try assumption.
  - destruct char_is_signed; reflexivity.
  - discriminate.
  - intros w. rewrite H1, H2. discriminate.
Qed.

(** C9. For every input, the empty one included, the function returns
    the same string in every world and leaves the world as it was: no
    exception, no failed assertion, nothing read and nothing written; two
    calls in a row return the same string twice. *)
Theorem sanitize_and_checksum_total (char_is_signed : bool) (input : string) :
  exists output,
    returns (sanitize_and_checksum char_is_signed input) output
    /\ returns (first <- sanitize_and_checksum char_is_signed input ;;
                second <- sanitize_and_checksum char_is_signed input ;;
                ret (first, second))
         (output, output).
Proof.
  pose proof (sanitize_and_checksum_returns char_is_signed input) as H.
  eexists; split; [exact H|].
  intros w. unfold bind. rewrite H, H. reflexivity.
Qed.

(** C10. The sum is below 1,000,000,007, so the checksum string has at
    most 10 characters; the budget [256 - len(prefix) - len(checksum)] is
    computed without wrap-around and is at least 241. *)
Theorem length_budget_never_wraps (input : string) :
  0 <= checksum_sum input < 1000000007
  /\ (String.length (checksum input) <= 10)%nat
  /\ 0 <= max_total_length - size prefix - size (checksum input)
  /\ max_sanitized_length input
     = max_total_length - size prefix - size (checksum input)
  /\ 241 <= max_sanitized_length input.
Proof.
  pose proof (checksum_size input) as Hs.
  pose proof (max_sanitized_length_exact input) as Hm.
  change (max_total_length - size prefix) with 251 in *.
  repeat split; try lia.
  - apply checksum_sum_range.
  - apply checksum_sum_range.
  - apply checksum_length.
Qed.

(** ** The resolver *)

Section ResolverFacts.

Variable char_is_signed : bool.
Variable parse : string -> string + json.

(** The loop returns the name made from the first qualifying key, or
    runs to its end; no element makes it throw or trip an assertion. *)
Lemma scan_endpoints_spec (search : string) (items : list json) (w : world) :
  scan_endpoints char_is_signed search items w
  = (Returned (option_map (fun key => (prefix ++ truncated char_is_signed key ++ checksum key))
                 (first_qualifying search items)), w).
Proof.
  induction items as [|element rest IH]; [reflexivity|].
  cbn [scan_endpoints first_qualifying].
  unfold qualifying_key, and_then, contains, at_const, bind, ret.
  destruct element as [| | | | |members]; try exact IH.
  destruct (find "endpoint_name" members) as [[| | |name| |]|];
    cbn [equals_string]; try exact IH.
  destruct (find "endpoint_key" members) as [[| | |key| |]|];
    destruct (String.eqb name search); cbn [is_string get_string];
    try exact IH.
  unfold ret. rewrite sanitize_and_checksum_returns. reflexivity.
Qed.

Lemma resolve_try_body_parsed (text search : string) (doc : json) (w : world) :
  parse text = inr doc ->
  resolve_try_body char_is_signed parse text search w
  = match match endpoints_of doc with
          | Some items => first_qualifying search items
          | None => None
          end with
    | Some key => (Returned (Some ((prefix ++ truncated char_is_signed key ++ checksum key))), w)
    | None =>
        (Returned None,
         mkWorld (env w)
           (cerr w ++
              ["Endpoint "; search;
               " not found or missing endpoint_key. Using default value."
               ++ newline]))
    end.
Proof.
  intros Hparse.
  assert (Hnone : forall w0 : world,
    (cerr_write "Endpoint " ;; cerr_write search ;;
     cerr_write (" not found or missing endpoint_key. Using default value."
                 ++ newline) ;;
     ret (@None string)) w0
    = (Returned None,
       mkWorld (env w0)
         (cerr w0 ++
            ["Endpoint "; search;
             " not found or missing endpoint_key. Using default value."
             ++ newline]))).
  { intros w0. unfold bind, cerr_write, ret. cbn [env cerr].
    now rewrite <- !app_assoc. }
  unfold resolve_try_body, json_parse, endpoints_of.
  rewrite Hparse.
  destruct doc as [| | | | |members]; try apply Hnone.
  cbv beta iota delta [bind ret contains at_mut].
  destruct (find "endpoints" members) as [endpoints|] eqn:Hfind;
    [|apply Hnone].
  destruct endpoints as [| | | |items|]; try apply Hnone.
  cbv beta iota delta [is_array]. rewrite Hfind.
  cbv beta iota delta [elements]. rewrite scan_endpoints_spec.
  destruct (first_qualifying search items); [reflexivity | apply Hnone].
Qed.

(** The code against the specification's reading of it. *)
Lemma resolve_endpoint_name_spec (search default : string) (w : world) :
  resolve_endpoint_name char_is_signed parse search default w
  = match resolution parse (env w) search with
    | Some key => sanitize_and_checksum char_is_signed key w
    | None =>
        (Returned default,
         mkWorld (env w) (cerr w ++ diagnostic parse (env w) search))
    end.
Proof.
  unfold resolve_endpoint_name, resolution, diagnostic.
  unfold bind at 1. unfold getenv.
  destruct (lookup_env "ENDPOINTS" (env w)) as [text|].
  - unfold bind at 1. unfold try_catch_json.
    destruct (parse text) as [what | doc] eqn:Hparse.
    + unfold resolve_try_body, json_parse. rewrite Hparse.
      unfold bind at 1. unfold throw.
      unfold bind, cerr_write, ret. cbn [env cerr].
      now rewrite <- !app_assoc.
    + rewrite (resolve_try_body_parsed _ _ _ _ Hparse).
      destruct (match endpoints_of doc with
                | Some items => first_qualifying search items
                | None => None
                end) as [key|].
      * now rewrite sanitize_and_checksum_returns.
      * reflexivity.
  - reflexivity.
Qed.

End ResolverFacts.

(** ** Claims on [resolve_endpoint_name] *)

Lemma qualifying_key_iff (search key : string)
  (members : list (string * json)) :
  qualifying_key search (object members) = Some key
  <-> find "endpoint_name" members = Some (jstring search)
      /\ find "endpoint_key" members = Some (jstring key).
Proof.
  unfold qualifying_key. split.
  - destruct (find "endpoint_name" members) as [[| | |name| |]|];
      try discriminate;
      destruct (find "endpoint_key" members) as [[| | |k| |]|];
      try discriminate.
    destruct (String.eqb_spec name search) as [-> | _]; [|discriminate].
    intros H. injection H as ->. split; reflexivity.
  - intros [-> ->]. now rewrite String.eqb_refl.
Qed.

Lemma unusable_iff (search : string) (element : json) :
  unusable search element <-> qualifying_key search element = None.
Proof.
  split.
  - intros H.
    destruct (qualifying_key search element) as [key|] eqn:Hq; [|reflexivity].
    exfalso. destruct H as [e Hno | m Hn | m v Hn Hv | m Hk | m v Hk Hv].
    + destruct e as [| | | | |members]; try discriminate.
      now apply (Hno members).
    + apply qualifying_key_iff in Hq. destruct Hq as [Hq _]. congruence.
    + apply qualifying_key_iff in Hq. destruct Hq as [Hq _]. congruence.
    + apply qualifying_key_iff in Hq. destruct Hq as [_ Hq]. congruence.
    + apply qualifying_key_iff in Hq. destruct Hq as [_ Hq].
      rewrite Hq in Hk. injection Hk as <-. discriminate.
  - intros Hq. destruct element as [| | | | |members];
      try (apply not_an_object; discriminate).
    unfold qualifying_key in Hq.
    destruct (find "endpoint_name" members) as [name|] eqn:Hn;
      [|now apply name_missing].
    destruct (find "endpoint_key" members) as [k|] eqn:Hk;
      [|now apply key_missing].
    destruct k as [| | |k| |];
      try (eapply key_mistyped; [exact Hk | reflexivity]).
    destruct name as [| | |name| |];
      try (eapply name_differs; [exact Hn | discriminate]).
    destruct (String.eqb_spec name search) as [-> | Hne]; [discriminate|].
    eapply name_differs; [exact Hn | congruence].
Qed.

Lemma first_qualifying_none (search : string) (items : list json) :
  Forall (fun element => qualifying_key search element = None) items ->
  first_qualifying search items = None.
Proof.
  induction 1 as [|element rest Hnone _ IH]; simpl; [reflexivity|].
  now rewrite Hnone.
Qed.

Lemma first_qualifying_first (search key : string) (before after : list json)
  (element : json) :
  Forall (fun e => qualifying_key search e = None) before ->
  qualifying_key search element = Some key ->
  first_qualifying search (before ++ element :: after)%list = Some key.
Proof.
  induction 1 as [|e rest Hnone _ IH]; intros Hq; simpl.
  - now rewrite Hq.
  - rewrite Hnone. now apply IH.
Qed.

Lemma falls_back_without_key (char_is_signed : bool)
  (parse : string -> string + json) (search default : string) (w : world) :
  resolution parse (env w) search = None ->
  falls_back (resolve_endpoint_name char_is_signed parse search default)
    default w.
Proof.
  intros Hnone. exists (diagnostic parse (env w) search). split.
  - unfold diagnostic.
    destruct (lookup_env "ENDPOINTS" (env w)); [|discriminate].
    destruct (parse s); discriminate.
  - now rewrite resolve_endpoint_name_spec, Hnone.
Qed.

(** C1. With [ENDPOINTS] set to the document of the specification's
    example, resolving "REQUESTER_ENDPOINT" returns what
    [sanitize_and_checksum] returns on "my key!", which is "ros2_my_key_"
    followed by the decimal checksum of "my key!".  In general, whatever
    the parser is: when the first qualifying element of the [endpoints]
    array carries the key [key], the call returns what
    [sanitize_and_checksum] returns on [key]. *)
Theorem resolve_first_qualifying_match (char_is_signed : bool) :
  (forall w : world,
     lookup_env "ENDPOINTS" (env w) = Some example_endpoints ->
     resolve_endpoint_name char_is_signed JsonText.parse
       "REQUESTER_ENDPOINT" "add_two_ints" w
     = sanitize_and_checksum char_is_signed "my key!" w
     /\ sanitize_and_checksum char_is_signed "my key!" w
        = (Returned ("ros2_my_key_" ++ to_string (checksum_sum "my key!")), w))
  /\ (forall (parse : string -> string + json) (w : world)
        (text search default key : string) (doc : json) (items : list json),
        lookup_env "ENDPOINTS" (env w) = Some text ->
        parse text = inr doc ->
        endpoints_of doc = Some items ->
        first_qualifying search items = Some key ->
        resolve_endpoint_name char_is_signed parse search default w
        = sanitize_and_checksum char_is_signed key w).
Proof.
  split.
  - intros w Henv. split.
    + rewrite resolve_endpoint_name_spec. unfold resolution. rewrite Henv.
      reflexivity.
    + destruct char_is_signed; reflexivity.
  - intros parse w text search default key doc items Henv Hparse Hdoc Hfirst.
    rewrite resolve_endpoint_name_spec. unfold resolution.
    now rewrite Henv, Hparse, Hdoc, Hfirst.
Qed.

(** C2. Whatever the environment holds and whatever the parser answers,
    the call returns a string: no exception leaves it and no assertion
    fails.  When [ENDPOINTS] is unset, when its text does not parse, when
    the document has no [endpoints] array, and when every element of the
    array is unusable (a field missing or of the wrong type, or another
    name), it returns [default_value] and writes a diagnostic to the error
    stream. *)
Theorem resolve_never_raises (char_is_signed : bool)
  (parse : string -> string + json) (search default : string) (w : world) :
  let call := resolve_endpoint_name char_is_signed parse search default in
  (exists (name : string) (w' : world),
     call w = (Returned name, w') /\ env w' = env w)
  /\ (lookup_env "ENDPOINTS" (env w) = None -> falls_back call default w)
  /\ (forall text what : string,
        lookup_env "ENDPOINTS" (env w) = Some text ->
        parse text = inl what ->
        falls_back call default w)
  /\ (forall (text : string) (doc : json),
        lookup_env "ENDPOINTS" (env w) = Some text ->
        parse text = inr doc ->
        endpoints_of doc = None ->
        falls_back call default w)
  /\ (forall (text : string) (doc : json) (items : list json),
        lookup_env "ENDPOINTS" (env w) = Some text ->
        parse text = inr doc ->
        endpoints_of doc = Some items ->
        Forall (unusable search) items ->
        falls_back call default w).
Proof.
  intros call. subst call. repeat split.
  - rewrite resolve_endpoint_name_spec.
    destruct (resolution parse (env w) search) as [key|].
    + rewrite sanitize_and_checksum_returns. now do 2 eexists.
    + now do 2 eexists.
  - intros Henv. apply falls_back_without_key. unfold resolution.
    now rewrite Henv.
  - intros text what Henv Hparse. apply falls_back_without_key.
    unfold resolution. now rewrite Henv, Hparse.
  - intros text doc Henv Hparse Hdoc. apply falls_back_without_key.
    unfold resolution. now rewrite Henv, Hparse, Hdoc.
  - intros text doc items Henv Hparse Hdoc Hall. apply falls_back_without_key.
    unfold resolution. rewrite Henv, Hparse, Hdoc.
    apply first_qualifying_none.
    eapply Forall_impl; [|exact Hall]. intros e. apply unusable_iff.
Qed.

(** C3. An element qualifies exactly when it is an object whose
    [endpoint_name] is the string [search_name] itself and whose
    [endpoint_key] is a string.  The array is scanned in order and the
    first qualifying element gives the key: of two qualifying elements
    with the same name the earlier one's key is used; when no element
    qualifies the call returns [default_value]. *)
Theorem first_match_wins (char_is_signed : bool)
  (parse : string -> string + json) (search default text : string)
  (doc : json) (w : world) :
  lookup_env "ENDPOINTS" (env w) = Some text ->
  parse text = inr doc ->
  let call := resolve_endpoint_name char_is_signed parse search default in
  (forall (members : list (string * json)) (key : string),
     qualifying_key search (object members) = Some key
     <-> find "endpoint_name" members = Some (jstring search)
         /\ find "endpoint_key" members = Some (jstring key))
  /\ (forall (before after : list json) (element : json) (key : string),
        endpoints_of doc = Some (before ++ element :: after)%list ->
        Forall (fun e => qualifying_key search e = None) before ->
        qualifying_key search element = Some key ->
        call w = sanitize_and_checksum char_is_signed key w)
  /\ (forall (before between after : list json) (earlier later : json)
        (earlier_key later_key : string),
        endpoints_of doc
        = Some (before ++ earlier :: between ++ later :: after)%list ->
        Forall (fun e => qualifying_key search e = None) before ->
        qualifying_key search earlier = Some earlier_key ->
        qualifying_key search later = Some later_key ->
        call w = sanitize_and_checksum char_is_signed earlier_key w)
  /\ (forall items : list json,
        endpoints_of doc = Some items ->
        Forall (fun e => qualifying_key search e = None) items ->
        fst (call w) = Returned default).
Proof.
  intros Henv Hparse call. subst call.
  assert (Hfirst : forall (before after : list json) (element : json)
                     (key : string),
    endpoints_of doc = Some (before ++ element :: after)%list ->
    Forall (fun e => qualifying_key search e = None) before ->
    qualifying_key search element = Some key ->
    resolve_endpoint_name char_is_signed parse search default w
    = sanitize_and_checksum char_is_signed key w).
  { intros before after element key Hdoc Hbefore Hq.
    rewrite resolve_endpoint_name_spec. unfold resolution.
    rewrite Henv, Hparse, Hdoc.
    now rewrite (first_qualifying_first _ _ _ _ _ Hbefore Hq). }
  split; [intros members key; apply qualifying_key_iff|].
  split; [|split].
  - exact Hfirst.
  - intros before between after earlier later earlier_key later_key
      Hdoc Hbefore Hq _.
    exact (Hfirst _ _ _ _ Hdoc Hbefore Hq).
  - intros items Hdoc Hall.
    rewrite resolve_endpoint_name_spec. unfold resolution.
    rewrite Henv, Hparse, Hdoc.
    now rewrite (first_qualifying_none _ _ Hall).
Qed.

(** ** The claims at work on concrete inputs *)

Lemma output_shape_and_length_witness :
  exists output,
    returns (sanitize_and_checksum true long_input) output
    /\ size output = 256.
Proof.
  destruct (output_shape_and_length true long_input)
    as (kept & dropped & output & Hret & Hout & Hsplit & Hle & _ & Hfull).
  exists output. split; [exact Hret|].
  apply Hfull. intros ->.
  rewrite append_empty_r in Hsplit.
  assert (Hkept : size kept = 300) by (rewrite <- Hsplit; reflexivity).
  rewrite Hout, !size_append, Hkept in Hle.
  pose proof (size_nonneg (checksum long_input)).
  change (size prefix) with 5 in Hle. lia.
Defined.

Lemma resolve_first_qualifying_match_witness :
  resolve_endpoint_name true JsonText.parse "REQUESTER_ENDPOINT" "add_two_ints"
    (world_with_endpoints example_endpoints)
  = (Returned "ros2_my_key_234868954", world_with_endpoints example_endpoints)
  /\ resolve_endpoint_name false JsonText.parse "A" "add_two_ints"
       (world_with_endpoints shared_name_endpoints)
     = sanitize_and_checksum false "first"
         (world_with_endpoints shared_name_endpoints).
Proof.
  split.
  - destruct (proj1 (resolve_first_qualifying_match true)
                (world_with_endpoints example_endpoints) eq_refl) as [H1 H2].
    rewrite H1. exact H2.
  - eapply (proj2 (resolve_first_qualifying_match false) JsonText.parse
              (world_with_endpoints shared_name_endpoints)
              shared_name_endpoints "A" "add_two_ints" "first");
      reflexivity.
Defined.

Lemma resolve_never_raises_witness :
  falls_back (resolve_endpoint_name true JsonText.parse "X" "default")
    "default" world_without_endpoints
  /\ falls_back (resolve_endpoint_name true JsonText.parse "X" "default")
       "default" (world_with_endpoints "{not json")
  /\ falls_back (resolve_endpoint_name true JsonText.parse "X" "default")
       "default" (world_with_endpoints "[1, 2]")
  /\ falls_back
       (resolve_endpoint_name true JsonText.parse "OTHER" "add_two_ints")
       "add_two_ints" (world_with_endpoints example_endpoints).
Proof.
  repeat split.
  - apply (proj1 (proj2 (resolve_never_raises true JsonText.parse "X" "default"
                           world_without_endpoints))).
    reflexivity.
  - eapply (proj1 (proj2 (proj2
              (resolve_never_raises true JsonText.parse "X" "default"
                 (world_with_endpoints "{not json")))));
      reflexivity.
  - eapply (proj1 (proj2 (proj2 (proj2
              (resolve_never_raises true JsonText.parse "X" "default"
                 (world_with_endpoints "[1, 2]"))))));
      reflexivity.
  - apply (proj2 (proj2 (proj2 (proj2
             (resolve_never_raises true JsonText.parse "OTHER" "add_two_ints"
                (world_with_endpoints example_endpoints)))))
             example_endpoints example_document
             [endpoint_entry "REQUESTER_ENDPOINT" "my key!"]);
      try reflexivity.
    apply Forall_cons; [|apply Forall_nil].
    apply name_differs with (v := jstring "REQUESTER_ENDPOINT");
      [reflexivity | discriminate].
Defined.

Lemma first_match_wins_witness :
  JsonText.parse shared_name_endpoints = inr shared_name_document
  /\ resolve_endpoint_name true JsonText.parse "A" "add_two_ints"
       (world_with_endpoints shared_name_endpoints)
     = (Returned "ros2_first97440432",
        world_with_endpoints shared_name_endpoints).
Proof.
  split; [reflexivity|].
  pose proof (first_match_wins true JsonText.parse "A" "add_two_ints"
                shared_name_endpoints shared_name_document
                (world_with_endpoints shared_name_endpoints)
                eq_refl eq_refl) as H.
  destruct H as (_ & _ & Hshared & _).
  rewrite (Hshared [endpoint_entry "OTHER" "zero"] [] []
             (endpoint_entry "A" "first") (endpoint_entry "A" "second")
             "first" "second");
    [reflexivity | reflexivity | repeat constructor | reflexivity | reflexivity].
Defined.

(** * Further properties of the code *)

(** ** More on [sanitize_and_checksum] *)

Lemma map_chars_append (f : ascii -> ascii) (a b : string) :
  map_chars f (a ++ b) = map_chars f a ++ map_chars f b.
Proof. induction a as [|c a IH]; simpl; [reflexivity | now rewrite IH]. Qed.

Lemma map_chars_fixed (s : string) :
  all_chars is_word_char s = true -> map_chars replace_non_word s = s.
Proof.
  induction s as [|c s IH]; simpl; [reflexivity|].
  intros H. apply andb_true_iff in H. destruct H as [Hc Hs].
  unfold replace_non_word at 1. now rewrite Hc, IH.
Qed.

Lemma digit_is_word_char (c : ascii) : is_digit c = true -> is_word_char c = true.
Proof.
  unfold is_digit, is_word_char. intros H. rewrite H.
  now rewrite orb_true_r.
Qed.

Lemma all_chars_weaken (p q : ascii -> bool) (s : string) :
  (forall c, p c = true -> q c = true) ->
  all_chars p s = true -> all_chars q s = true.
Proof.
  intros Hpq. induction s as [|c s IH]; simpl; [reflexivity|].
  intros H. apply andb_true_iff in H. destruct H as [Hc Hs].
  now rewrite (Hpq c Hc), IH.
Qed.

Lemma checksum_digits (input : string) :
  all_chars is_digit (checksum input) = true.
Proof.
  pose proof (checksum_sum_range input) as Hr.
  assert (Hc : canonical_decimal (checksum input) = true).
  { apply to_string_canonical. unfold checksum_modulus, word_modulus in *. lia. }
  unfold canonical_decimal in Hc. now apply andb_true_iff in Hc.
Qed.

Lemma truncated_exact_size (char_is_signed : bool) (input : string) :
  size (truncated char_is_signed input)
  = Z.min (size input) (max_sanitized_length input).
Proof.
  assert (Hlen : size (sanitize char_is_signed input) = size input)
    by (unfold size; now rewrite sanitize_length).
  pose proof (checksum_size input) as Hck.
  pose proof (max_sanitized_length_exact input) as Hmax.
  change (max_total_length - size prefix) with 251 in Hmax.
  unfold truncated.
  destruct (Z.gtb_spec (size (sanitize char_is_signed input))
              (max_sanitized_length input)) as [Hgt | Hle].
  - unfold substr_chars, size in *. rewrite substring_0_length. lia.
  - lia.
Qed.

Lemma checksum_loop_append (a b : string) : forall sum : Z,
  checksum_loop (a ++ b) sum = checksum_loop b (checksum_loop a sum).
Proof. induction a as [|c a IH]; intros sum; simpl; [reflexivity | apply IH]. Qed.

(** Equal sanitized strings and equal sums give equal outputs. *)
Lemma same_output (char_is_signed : bool) (a b : string) :
  sanitize char_is_signed a = sanitize char_is_signed b ->
  checksum_sum a = checksum_sum b ->
  forall w, sanitize_and_checksum char_is_signed a w
            = sanitize_and_checksum char_is_signed b w.
Proof.
  intros Hs Hc w.
  rewrite !sanitize_and_checksum_returns.
  unfold truncated, max_sanitized_length, checksum. now rewrite Hs, Hc.
Qed.

(** X1. Whatever the input, the whole output, and not only its middle
    segment, is made of [A-Za-z0-9_], and it starts with the five
    characters of "ros2_". *)
Theorem output_is_identifier (char_is_signed : bool) (input : string) :
  exists rest,
    returns (sanitize_and_checksum char_is_signed input) ("ros2_" ++ rest)
    /\ all_chars is_word_char ("ros2_" ++ rest) = true.
Proof.
  exists (truncated char_is_signed input ++ checksum input). split.
  - apply sanitize_and_checksum_returns.
  - rewrite !all_chars_append, truncated_word_chars.
    rewrite (all_chars_weaken is_digit is_word_char _ digit_is_word_char
               (checksum_digits input)).
    reflexivity.
Qed.

(** X2. An input of at most 241 characters is never truncated: the output
    is the prefix, the whole sanitized input and the checksum. *)
Theorem short_input_not_truncated (char_is_signed : bool) (input : string) :
  size input <= 241 ->
  returns (sanitize_and_checksum char_is_signed input)
    (prefix ++ sanitize char_is_signed input ++ checksum input).
Proof.
  intros Hshort w. rewrite sanitize_and_checksum_returns.
  unfold truncated.
  assert (Hlen : size (sanitize char_is_signed input) = size input)
    by (unfold size; now rewrite sanitize_length).
  pose proof (checksum_size input) as Hck.
  pose proof (max_sanitized_length_exact input) as Hmax.
  change (max_total_length - size prefix) with 251 in Hmax.
  destruct (Z.gtb_spec (size (sanitize char_is_signed input))
              (max_sanitized_length input)) as [Hgt | Hle]; [lia | reflexivity].
Qed.

(** X3. The length of the output is the length of the prefix, plus the
    smaller of the input's length and the budget, plus the length of the
    checksum; an input of more than 250 characters always gives exactly
    256. *)
Theorem output_length_exact (char_is_signed : bool) (input : string) :
  exists output,
    returns (sanitize_and_checksum char_is_signed input) output
    /\ size output
       = size prefix + Z.min (size input) (max_sanitized_length input)
         + size (checksum input)
    /\ (250 < size input -> size output = 256).
Proof.
  eexists. split; [apply sanitize_and_checksum_returns|].
  rewrite !size_append, truncated_exact_size.
  pose proof (checksum_size input) as Hck.
  pose proof (max_sanitized_length_exact input) as Hmax.
  change (max_total_length - size prefix) with 251 in Hmax.
  change (size prefix) with 5.
  split; lia.
Qed.

(** X4. An input made of [A-Za-z0-9_] only is its own sanitized string,
    and sanitizing twice is sanitizing once. *)
Theorem sanitize_idempotent (char_is_signed : bool) (input : string) :
  (all_chars is_word_char input = true -> sanitize char_is_signed input = input)
  /\ sanitize char_is_signed (sanitize char_is_signed input)
     = sanitize char_is_signed input.
Proof.
  assert (Hfix : forall s, all_chars is_word_char s = true ->
                           sanitize char_is_signed s = s).
  { intros s Hs. rewrite sanitize_map. now apply map_chars_fixed. }
  split; [apply Hfix | apply Hfix, sanitize_word_chars].
Qed.

(** X5. Both loops work through a concatenation piece by piece: the
    sanitized string of [a ++ b] is the two sanitized strings joined, and
    the sum of [a ++ b] is the loop run over [b] from the sum of [a]. *)
Theorem loops_compose (char_is_signed : bool) (a b : string) :
  sanitize char_is_signed (a ++ b)
  = sanitize char_is_signed a ++ sanitize char_is_signed b
  /\ checksum_sum (a ++ b) = checksum_loop b (checksum_sum a).
Proof.
  split.
  - rewrite !sanitize_map. apply map_chars_append.
  - apply checksum_loop_append.
Qed.

(** X6. The function is not injective: the different inputs ".@" and "-_"
    sanitize to the same string and have the same sum, and so do any two
    inputs that continue them in the same way; each such pair gives one
    output. *)
Theorem colliding_inputs (char_is_signed : bool) (suffix : string) :
  ".@" ++ suffix <> "-_" ++ suffix
  /\ forall w,
       sanitize_and_checksum char_is_signed (".@" ++ suffix) w
       = sanitize_and_checksum char_is_signed ("-_" ++ suffix) w.
Proof.
  split; [discriminate|].
  apply same_output.
  - rewrite !sanitize_map, !map_chars_append. reflexivity.
  - unfold checksum_sum. rewrite !checksum_loop_append. reflexivity.
Qed.

(** X7. The output does not depend on whether [char] is signed on the
    platform, for the sanitizer and for the resolver. *)
Theorem char_signedness_irrelevant (parse : string -> string + json)
  (input search default : string) (w : world) :
  sanitize_and_checksum true input w = sanitize_and_checksum false input w
  /\ resolve_endpoint_name true parse search default w
     = resolve_endpoint_name false parse search default w.
Proof.
  assert (H : forall s w0, sanitize_and_checksum true s w0
                           = sanitize_and_checksum false s w0).
  { intros s w0. rewrite !sanitize_and_checksum_returns.
    unfold truncated. now rewrite !sanitize_map. }
  split; [apply H|].
  rewrite !resolve_endpoint_name_spec.
  destruct (resolution parse (env w) search); [apply H | reflexivity].
Qed.

(** ** More on [resolve_endpoint_name] *)

Lemma output_word_chars (char_is_signed : bool) (input : string) :
  all_chars is_word_char
    (prefix ++ truncated char_is_signed input ++ checksum input) = true.
Proof.
  rewrite !all_chars_append, truncated_word_chars.
  rewrite (all_chars_weaken is_digit is_word_char _ digit_is_word_char
             (checksum_digits input)).
  reflexivity.
Qed.

Lemma output_size_bound (char_is_signed : bool) (input : string) :
  size (prefix ++ truncated char_is_signed input ++ checksum input) <= 256.
Proof.
  rewrite !size_append.
  pose proof (truncated_size char_is_signed input) as Ht.
  pose proof (max_sanitized_length_exact input) as Hmax.
  unfold max_total_length in Hmax. lia.
Qed.

Lemma resolve_returns (char_is_signed : bool) (parse : string -> string + json)
  (search default : string) (w : world) :
  exists name w',
    resolve_endpoint_name char_is_signed parse search default w
    = (Returned name, w').
Proof.
  rewrite resolve_endpoint_name_spec.
  destruct (resolution parse (env w) search) as [key|].
  - rewrite sanitize_and_checksum_returns. now do 2 eexists.
  - now do 2 eexists.
Qed.

(** X8. Whatever the environment and the parser's answer, the name the
    resolver returns is either the default, with a diagnostic written, or
    a name of at most 256 characters of [A-Za-z0-9_] that starts with
    "ros2_", with nothing written and the world untouched. *)
Theorem resolved_name_shape (char_is_signed : bool)
  (parse : string -> string + json) (search default : string) (w : world) :
  exists name w',
    resolve_endpoint_name char_is_signed parse search default w
    = (Returned name, w')
    /\ ((name = default /\ env w' = env w /\ cerr w' <> cerr w)
        \/ (w' = w /\ size name <= 256
            /\ all_chars is_word_char name = true
            /\ exists rest, name = "ros2_" ++ rest)).
Proof.
  rewrite resolve_endpoint_name_spec.
  destruct (resolution parse (env w) search) as [key|] eqn:Hres.
  - rewrite sanitize_and_checksum_returns. do 2 eexists. split; [reflexivity|].
    right. split; [reflexivity|]. split; [apply output_size_bound|].
    split; [apply output_word_chars|]. now eexists.
  - do 2 eexists. split; [reflexivity|]. left.
    split; [reflexivity|]. split; [reflexivity|]. cbn [cerr].
    intros Heq.
    assert (Hlen : List.length (cerr w ++ diagnostic parse (env w) search)%list
                   = List.length (cerr w)) by now rewrite Heq.
    rewrite List.length_app in Hlen. unfold diagnostic in Hlen.
    destruct (lookup_env "ENDPOINTS" (env w)) as [text|];
      [destruct (parse text)|]; simpl in Hlen; lia.
Qed.

(** X9. Of the whole world only the value of [ENDPOINTS] matters: in two
    worlds that agree on it the resolver returns the same name, whatever
    else the environment holds and whatever was written before. *)
Theorem only_endpoints_is_read (char_is_signed : bool)
  (parse : string -> string + json) (search default : string)
  (w1 w2 : world) :
  lookup_env "ENDPOINTS" (env w1) = lookup_env "ENDPOINTS" (env w2) ->
  fst (resolve_endpoint_name char_is_signed parse search default w1)
  = fst (resolve_endpoint_name char_is_signed parse search default w2).
Proof.
  intros Hsame. rewrite !resolve_endpoint_name_spec.
  unfold resolution. rewrite Hsame.
  destruct (lookup_env "ENDPOINTS" (env w2)) as [text|]; [|reflexivity].
  destruct (parse text) as [what | doc]; [reflexivity|].
  destruct (endpoints_of doc) as [items|]; [|reflexivity].
  destruct (first_qualifying search items) as [key|]; [|reflexivity].
  now rewrite !sanitize_and_checksum_returns.
Qed.

(** X10. An element that carries the searched name but no string key does
    not end the scan: the key of a later qualifying element is used. *)
Theorem entry_without_string_key_is_skipped (char_is_signed : bool)
  (parse : string -> string + json) (search default text key : string)
  (doc later : json) (members : list (string * json)) (rest : list json)
  (w : world) :
  lookup_env "ENDPOINTS" (env w) = Some text ->
  parse text = inr doc ->
  endpoints_of doc = Some (object members :: later :: rest) ->
  find "endpoint_name" members = Some (jstring search) ->
  (forall k, find "endpoint_key" members <> Some (jstring k)) ->
  qualifying_key search later = Some key ->
  resolve_endpoint_name char_is_signed parse search default w
  = sanitize_and_checksum char_is_signed key w.
Proof.
  intros Henv Hparse Hdoc Hname Hkey Hlater.
  rewrite resolve_endpoint_name_spec. unfold resolution.
  rewrite Henv, Hparse, Hdoc. cbn [first_qualifying].
  destruct (qualifying_key search (object members)) as [k|] eqn:Hq.
  - apply qualifying_key_iff in Hq. destruct Hq as [_ Hk].
    now destruct (Hkey k).
  - now rewrite Hlater.
Qed.

(** X11. What is written to the error stream tells the cause: one piece
    when [ENDPOINTS] is unset; the parser's own message between two fixed
    pieces when the text does not parse; the searched name between two
    fixed pieces when the text parses and no key is found, also when the
    document is not an object at all. *)
Theorem diagnostic_by_cause (char_is_signed : bool)
  (parse : string -> string + json) (search default : string) (w : world) :
  let call := resolve_endpoint_name char_is_signed parse search default in
  (lookup_env "ENDPOINTS" (env w) = None ->
   call w = (Returned default,
             mkWorld (env w) (cerr w ++ text_env_not_set)))
  /\ (forall text what : string,
        lookup_env "ENDPOINTS" (env w) = Some text ->
        parse text = inl what ->
        call w = (Returned default,
                  mkWorld (env w) (cerr w ++ text_parse_error what)))
  /\ (forall (text : string) (doc : json),
        lookup_env "ENDPOINTS" (env w) = Some text ->
        parse text = inr doc ->
        match endpoints_of doc with
        | Some items => first_qualifying search items
        | None => None
        end = None ->
        call w = (Returned default,
                  mkWorld (env w) (cerr w ++ text_not_found search))).
Proof.
  intros call. subst call. repeat split.
  - intros Henv. rewrite resolve_endpoint_name_spec.
    unfold resolution, diagnostic. now rewrite Henv.
  - intros text what Henv Hparse. rewrite resolve_endpoint_name_spec.
    unfold resolution, diagnostic. now rewrite Henv, Hparse.
  - intros text doc Henv Hparse Hnone. rewrite resolve_endpoint_name_spec.
    unfold resolution, diagnostic. rewrite Henv, Hparse.
    destruct (endpoints_of doc) as [items|]; now rewrite ?Hnone.
Qed.

(** ** [main] *)

Module RosFacts.

Import Ros.

Lemma wait_loop_ready (n : nat) (rest : list poll) :
  wait_loop (repeat (service_absent true) n ++ service_ready :: rest)%list
  = ((waiting_calls n ++ [wait_for_service 1])%list, Some true).
Proof. induction n as [|n IH]; simpl; [reflexivity | now rewrite IH]. Qed.

Lemma wait_loop_interrupted (n : nat) (rest : list poll) :
  wait_loop (repeat (service_absent true) n
             ++ service_absent false :: rest)%list
  = ((waiting_calls n
      ++ [wait_for_service 1; ok;
          log_error "client interrupted while waiting for service to appear."])%list,
     Some false).
Proof. induction n as [|n IH]; simpl; [reflexivity | now rewrite IH]. Qed.

Lemma wait_loop_undecided (n : nat) :
  wait_loop (repeat (service_absent true) n) = (waiting_calls n, None).
Proof. induction n as [|n IH]; simpl; [reflexivity | now rewrite IH]. Qed.

(** Every script has one of the three shapes. *)
Lemma script_shape (script : list poll) :
  becomes_ready script \/ interrupted script \/ never_decided script.
Proof.
  induction script as [|p script IH].
  - right; right. now exists 0%nat.
  - destruct p as [|[|]].
    + left. now exists 0%nat, script.
    + destruct IH as [(n & rest & ->) | [(n & rest & ->) | (n & ->)]].
      * left. now exists (S n), rest.
      * right; left. now exists (S n), rest.
      * right; right. now exists (S n).
    + right; left. now exists 0%nat, script.
Qed.

Lemma ready_verdict (script : list poll) :
  becomes_ready script <-> snd (wait_loop script) = Some true.
Proof.
  split.
  - intros (n & rest & ->). now rewrite wait_loop_ready.
  - intros H. destruct (script_shape script)
      as [Hr | [(n & rest & ->) | (n & ->)]]; [exact Hr | |].
    + rewrite wait_loop_interrupted in H. discriminate.
    + rewrite wait_loop_undecided in H. discriminate.
Qed.

Lemma interrupted_verdict (script : list poll) :
  interrupted script <-> snd (wait_loop script) = Some false.
Proof.
  split.
  - intros (n & rest & ->). now rewrite wait_loop_interrupted.
  - intros H. destruct (script_shape script)
      as [(n & rest & ->) | [Hi | (n & ->)]]; [| exact Hi |].
    + rewrite wait_loop_ready in H. discriminate.
    + rewrite wait_loop_undecided in H. discriminate.
Qed.

Lemma undecided_verdict (script : list poll) :
  never_decided script <-> snd (wait_loop script) = None.
Proof.
  split.
  - intros (n & ->). now rewrite wait_loop_undecided.
  - intros H. destruct (script_shape script)
      as [(n & rest & ->) | [(n & rest & ->) | Hn]]; [| | exact Hn].
    + rewrite wait_loop_ready in H. discriminate.
    + rewrite wait_loop_interrupted in H. discriminate.
Qed.

Lemma in_waiting_calls (c : call) (n : nat) :
  In c (waiting_calls n) ->
  c = wait_for_service 1 \/ c = ok
  \/ c = log_info "waiting for service to appear...".
Proof.
  induction n as [|n IH]; simpl; [contradiction|].
  intros [<- | [<- | [<- | H]]]; auto.
Qed.


(** A run, from what the resolver returns and the verdict of the wait
    loop. *)
Lemma main_run (char_is_signed : bool) (parse : string -> string + json)
  (mw : middleware) (w : world) :
  exists name w',
    resolve_endpoint_name char_is_signed parse
      "REQUESTER_ENDPOINT" "add_two_ints" w = (Returned name, w')
    /\ main char_is_signed parse mw w
       = let start := [init; make_node "minimal_client"; create_client name] in
         let calls := fst (wait_loop (polls mw)) in
         match snd (wait_loop (polls mw)) with
         | None => (waiting, (start ++ calls)%list, w')
         | Some false => (exited 1, (start ++ calls)%list, w')
         | Some true =>
             match spin_result mw with
             | SUCCESS =>
                 (exited 0,
                  (start ++ calls
                   ++ [async_send_request 41 1; spin_until_future_complete;
                       future_get; log_info_result 41 1 (response_sum mw);
                       shutdown])%list, w')
             | _ =>
                 (exited 1,
                  (start ++ calls
                   ++ [async_send_request 41 1; spin_until_future_complete;
                       log_error "service call failed :(";
                       remove_pending_request])%list, w')
             end
         end.
Proof.
  destruct (resolve_returns char_is_signed parse
              "REQUESTER_ENDPOINT" "add_two_ints" w) as (name & w' & Hres).
  exists name, w'. split; [exact Hres|].
  unfold main. rewrite Hres.
  destruct (wait_loop (polls mw)) as [calls [[|]|]]; reflexivity.
Qed.

End RosFacts.

Module MainProperties.

Import Ros RosFacts.


(** The five runs: the service is there and the spin ends in SUCCESS, in
    INTERRUPTED or in TIMEOUT; the process is interrupted while waiting;
    the script ends in the wait loop. *)
Ltac run_cases char_is_signed parse mw w name w' Hres :=
  destruct (main_run char_is_signed parse mw w) as (name & w' & Hres & ->);
  pose proof (ready_verdict (polls mw)) as Hready;
  pose proof (interrupted_verdict (polls mw)) as Hinterrupted;
  pose proof (undecided_verdict (polls mw)) as Hundecided;
  unfold ending_of, calls_of; cbv zeta;
  destruct (snd (wait_loop (polls mw))) as [[|]|];
  [destruct (spin_result mw) | |]; cbn [fst snd].

(** Settles a goal or a hypothesis on the shape of the script from the
    verdict of the wait loop. *)
Ltac verdict :=
  repeat match goal with
         | H : _ /\ _ |- _ => destruct H
         | H : _ \/ _ |- _ => destruct H
         end;
  first
    [ congruence
    | match goal with
      | V : ?P <-> _ , H : ?P |- _ => apply V in H; discriminate H
      | V : ?P <-> _ |- ?P => apply V; reflexivity
      end ].


(** X12. [main] returns 0 exactly when the service is reported there
    before any interruption and the spin ends in SUCCESS; it returns 1
    exactly when the process is interrupted while waiting or the spin ends
    otherwise; it stays in the wait loop as long as the service is absent
    and the process is running.  No exception of the resolver ends it. *)
Theorem main_exit_code (char_is_signed : bool)
  (parse : string -> string + json) (mw : middleware) (w : world) :
  let e := ending_of (main char_is_signed parse mw w) in
  (e = exited 0 <-> becomes_ready (polls mw) /\ spin_result mw = SUCCESS)
  /\ (e = exited 1 <->
      interrupted (polls mw)
      \/ (becomes_ready (polls mw) /\ spin_result mw <> SUCCESS))
  /\ (e = waiting <-> never_decided (polls mw))
  /\ e <> crashed.
Proof.
  run_cases char_is_signed parse mw w name w' Hres;
    repeat split; intros; try discriminate; try reflexivity;
    try verdict.
  - right. split; [verdict | discriminate].
  - right. split; [verdict | discriminate].
  - left. verdict.
Qed.




End MainProperties.

(** ** The further properties at work on concrete inputs *)

Lemma short_input_not_truncated_witness :
  size "my key!" <= 241
  /\ returns (sanitize_and_checksum true "my key!") "ros2_my_key_234868954".
Proof.
  split; [discriminate|].
  apply (short_input_not_truncated true "my key!"). discriminate.
Defined.

Lemma output_length_exact_witness :
  exists output,
    returns (sanitize_and_checksum false long_input) output
    /\ size output = 256.
Proof.
  destruct (output_length_exact false long_input) as (output & Hret & _ & Hlong).
  exists output. split; [exact Hret|]. apply Hlong. reflexivity.
Defined.

Lemma sanitize_idempotent_witness : sanitize true "my_key_01" = "my_key_01".
Proof. apply (proj1 (sanitize_idempotent true "my_key_01")). reflexivity. Defined.

Lemma only_endpoints_is_read_witness :
  fst (resolve_endpoint_name true JsonText.parse "REQUESTER_ENDPOINT"
         "add_two_ints" (world_with_endpoints example_endpoints))
  = fst (resolve_endpoint_name true JsonText.parse "REQUESTER_ENDPOINT"
           "add_two_ints" (busy_world_with_endpoints example_endpoints)).
Proof.
  apply (only_endpoints_is_read true JsonText.parse "REQUESTER_ENDPOINT"
           "add_two_ints" (world_with_endpoints example_endpoints)
           (busy_world_with_endpoints example_endpoints)).
  reflexivity.
Defined.

Lemma entry_without_string_key_is_skipped_witness :
  JsonText.parse mistyped_key_endpoints = inr mistyped_key_document
  /\ resolve_endpoint_name true JsonText.parse "A" "add_two_ints"
       (world_with_endpoints mistyped_key_endpoints)
     = (Returned "ros2_second388687455",
        world_with_endpoints mistyped_key_endpoints).
Proof.
  split; [reflexivity|].
  rewrite (entry_without_string_key_is_skipped true JsonText.parse
             "A" "add_two_ints" mistyped_key_endpoints "second"
             mistyped_key_document (endpoint_entry "A" "second")
             [("endpoint_key", number "7"); ("endpoint_name", jstring "A")]
             [] (world_with_endpoints mistyped_key_endpoints));
    try reflexivity.
  intros k. discriminate.
Defined.

Lemma diagnostic_by_cause_witness :
  cerr (snd (resolve_endpoint_name true JsonText.parse "X" "default"
               world_without_endpoints))
  = text_env_not_set
  /\ cerr (snd (resolve_endpoint_name true JsonText.parse "X" "default"
                  (world_with_endpoints "{not json")))
     = text_parse_error "[json.exception.parse_error.101] parse error"
  /\ cerr (snd (resolve_endpoint_name true JsonText.parse "X" "default"
                  (world_with_endpoints "[1, 2]")))
     = text_not_found "X".
Proof.
  pose proof (diagnostic_by_cause true JsonText.parse "X" "default"
                world_without_endpoints) as (H1 & _ & _).
  pose proof (diagnostic_by_cause true JsonText.parse "X" "default"
                (world_with_endpoints "{not json")) as (_ & H2 & _).
  pose proof (diagnostic_by_cause true JsonText.parse "X" "default"
                (world_with_endpoints "[1, 2]")) as (_ & _ & H3).
  split; [|split].
  - rewrite (H1 eq_refl). reflexivity.
  - rewrite (H2 "{not json" _ eq_refl eq_refl). reflexivity.
  - rewrite (H3 "[1, 2]" (array [number "1"; number "2"]) eq_refl eq_refl eq_refl).
    reflexivity.
Defined.

Lemma main_exit_code_witness :
  Ros.ending_of (Ros.main true JsonText.parse Ros.patient_run world_without_endpoints)
  = Ros.exited 0
  /\ Ros.ending_of (Ros.main true JsonText.parse Ros.interrupted_run
                  world_without_endpoints)
     = Ros.exited 1.
Proof.
  split.
  - apply (proj1 (MainProperties.main_exit_code true JsonText.parse
                    Ros.patient_run world_without_endpoints)).
    split; [|reflexivity]. now exists 2%nat, [].
  - apply (proj1 (proj2 (MainProperties.main_exit_code true JsonText.parse
                           Ros.interrupted_run world_without_endpoints))).
    left. now exists 1%nat, [Ros.service_ready].
Defined.


